(** * zeebo/ini: a shallow embedding of [Read] and [Write] (src/ini.go)

    Go strings and byte slices are both sequences of bytes; they are
    modelled as [list byte].  The callback handed to [Read] and the sink
    handed to [Write] are stateful Go values: they are modelled by explicit
    state passing.  Library functions used by ini.go ([bytes.TrimSpace],
    [bytes.IndexByte], [bufio.Scanner] with its default [ScanLines] split
    function, [strings.ReplaceAll]) are modelled by their behaviour. *)

From Stdlib Require Import Strings.Byte Strings.String.
From Stdlib Require Import List Bool Arith NArith Lia.
Import ListNotations.

(** ** Bytes *)

Definition bytes := list byte.

(** A Go string literal without escapes. *)
Definition bs (s : string) : bytes := list_byte_of_string s.

Definition TAB : byte := x09.
Definition LF : byte := x0a.          (* '\n' *)
Definition CR : byte := x0d.          (* '\r' *)
Definition SP : byte := x20.          (* ' '  *)
Definition HASH : byte := x23.        (* '#'  *)
Definition EQUALS : byte := x3d.      (* '='  *)
Definition LBRACKET : byte := x5b.    (* '['  *)
Definition BACKSLASH : byte := x5c.   (* '\\' *)
Definition RBRACKET : byte := x5d.    (* ']'  *)

Definition bytes_eq_dec : forall x y : bytes, {x = y} + {x <> y} :=
  list_eq_dec Byte.byte_eq_dec.

(** Go's [len], as a binary number (Go's [int] is 64 bits wide; no length
    in this development comes near that bound). *)
Definition len (s : bytes) : N := N.of_nat (length s).

(** [s[0]] and [s[len(s)-1]].  Both panic in Go on an empty slice; ini.go
    only evaluates them after [len(linebuf) == 0] has been excluded, so the
    default below is never returned to it. *)
Definition first (s : bytes) : byte := hd x00 s.
Definition lastb (s : bytes) : byte := last s x00.

(** ** The [bytes] and [strings] packages *)

Module GoBytes.

(** [bytes.IndexByte(s, c)]: index of the first [c] in [s]; [None] stands
    for Go's [-1]. *)
Fixpoint IndexByte (s : bytes) (c : byte) : option nat :=
  match s with
  | [] => None
  | b :: t => if Byte.eqb b c then Some 0
              else option_map S (IndexByte t c)
  end.

(** White space as [unicode.IsSpace] defines it, in its UTF-8 encoding.
    [bytes.TrimSpace] decodes runes from either end of the slice and
    slices off those for which [unicode.IsSpace] holds: U+0009..U+000D,
    U+0020, U+0085, U+00A0, U+1680, U+2000..U+200A, U+2028, U+2029,
    U+202F, U+205F, U+3000.  A byte that is not part of a well-formed
    encoding decodes to [utf8.RuneError], which is not white space.

    [spaceWidth s] is the number of bytes of the white-space rune encoded
    at the head of [s], and [0] when [s] does not start with one. *)
Definition spaceWidth (s : bytes) : nat :=
  match s with
  | (x09 | x0a | x0b | x0c | x0d | x20) :: _ => 1
  | xc2 :: (x85 | xa0) :: _ => 2
  | xe1 :: x9a :: x80 :: _ => 3
  | xe2 :: x80 :: (x80 | x81 | x82 | x83 | x84 | x85 | x86 | x87 | x88
                   | x89 | x8a | xa8 | xa9 | xaf) :: _ => 3
  | xe2 :: x81 :: x9f :: _ => 3
  | xe3 :: x80 :: x80 :: _ => 3
  | _ => 0
  end.

(** The same for the white-space rune encoded at the end of a slice whose
    bytes are given last byte first. *)
Definition spaceWidthRev (r : bytes) : nat :=
  match r with
  | (x09 | x0a | x0b | x0c | x0d | x20) :: _ => 1
  | (x85 | xa0) :: xc2 :: _ => 2
  | x80 :: x9a :: xe1 :: _ => 3
  | (x80 | x81 | x82 | x83 | x84 | x85 | x86 | x87 | x88
     | x89 | x8a | xa8 | xa9 | xaf) :: x80 :: xe2 :: _ => 3
  | x9f :: x81 :: xe2 :: _ => 3
  | x80 :: x80 :: xe3 :: _ => 3
  | _ => 0
  end.

(** Drop white-space runes from the head of [s]; [fuel] bounds the number
    of runes dropped. *)
Fixpoint dropSpaces (width : bytes -> nat) (fuel : nat) (s : bytes) : bytes :=
  match fuel with
  | O => s
  | S fuel' =>
      match width s with
      | O => s
      | w => dropSpaces width fuel' (skipn w s)
      end
  end.

Definition TrimLeft (s : bytes) : bytes :=
  dropSpaces spaceWidth (length s) s.

Definition TrimRight (s : bytes) : bytes :=
  rev (dropSpaces spaceWidthRev (length s) (rev s)).

(** [bytes.TrimSpace(s)]. *)
Definition TrimSpace (s : bytes) : bytes := TrimRight (TrimLeft s).

End GoBytes.

Module GoStrings.

(** [strings.ReplaceAll(x, "\n", "\\\n")], the only instance ini.go uses:
    every newline becomes a backslash followed by a newline. *)
Fixpoint ReplaceNewlines (x : bytes) : bytes :=
  match x with
  | [] => []
  | b :: t => if Byte.eqb b LF then BACKSLASH :: LF :: ReplaceNewlines t
              else b :: ReplaceNewlines t
  end.

End GoStrings.

(** ** Errors *)

(** Go's [error] values that occur in ini.go.  [ErrInvalidLine linebuf] is
    [errs.Tag("invalid line").Errorf("%q", linebuf)]: the error carries the
    line buffer (Go prints it quoted).  [ErrOther] stands for any error a
    callback or a sink returns. *)
Inductive error : Type :=
| ErrInvalidLine (linebuf : bytes)
| ErrTooLong
| ErrOther (msg : string).

(** ** [bufio.Scanner] with the default split function [bufio.ScanLines] *)

Module Bufio.

(** [bufio.MaxScanTokenSize]: the scanner's buffer never grows beyond
    64 KiB, and a line that does not fit ends the scan with
    [bufio.ErrTooLong]. *)
Definition MaxScanTokenSize : N := 65536.

(** [dropCR]: one trailing carriage return is removed from a line. *)
Definition dropCR (data : bytes) : bytes :=
  if (0 <? len data)%N && Byte.eqb (lastb data) CR
  then removelast data else data.

(** The lines of [data]: each ends at a newline, which is not part of it;
    text after the last newline is a final line when it is not empty. *)
Fixpoint rawLines (data : bytes) : list bytes :=
  match data with
  | [] => []
  | b :: rest =>
      if Byte.eqb b LF then [] :: rawLines rest
      else match rawLines rest with
           | [] => [[b]]
           | l :: ls => (b :: l) :: ls
           end
  end.

(** The tokens successive calls of [Scan] deliver, and the value of
    [Err()] once [Scan] has returned false.  The source is an in-memory
    reader ([strings.Reader], [bytes.Buffer]): it delivers [data] and then
    end of file, without a read error. *)
Fixpoint scan (lines : list bytes) : list bytes * option error :=
  match lines with
  | [] => ([], None)
  | l :: ls =>
      if (MaxScanTokenSize <=? len l)%N then ([], Some ErrTooLong)
      else let (toks, e) := scan ls in (dropCR l :: toks, e)
  end.

Definition Scanner (data : bytes) : list bytes * option error :=
  scan (rawLines data).

End Bufio.

(** ** Package ini *)

Record Entry : Type := mkEntry {
  Section_ : bytes;
  Key : bytes;
  Value : bytes
}.

Definition zeroEntry : Entry := mkEntry [] [] [].

(** [escape] (ini.go, line 147). *)
Definition escape (x : bytes) : bytes := GoStrings.ReplaceNewlines x.

(** *** [Read] (ini.go, lines 62-104) *)

Section Read.

(** The callback [cb func(ent Entry) error] is a closure: [St] is the
    state it closes over. *)
Context {St : Type}.
Variable cb : Entry -> St -> St * option error.

(** What one pass through the body of the [for scanner.Scan()] loop does:
    go on with the next token ([continue]), or leave [Read] with an
    error ([return]). *)
Inductive control : Type :=
| Continue (linebuf : bytes) (ent : Entry) (s : St)
| Return (err : error) (s : St).

Definition body (tok linebuf : bytes) (ent : Entry) (s : St) : control :=
  let linebuf := linebuf ++ tok in
  if (len linebuf =? 0)%N || (len (GoBytes.TrimSpace linebuf) =? 0)%N then
    Continue linebuf ent s
  else if Byte.eqb (lastb linebuf) BACKSLASH then
    Continue (removelast linebuf ++ [LF]) ent s
  else if Byte.eqb (first linebuf) HASH then
    Continue [] ent s
  else if Byte.eqb (first linebuf) LBRACKET
          && Byte.eqb (lastb linebuf) RBRACKET then
    Continue []
      (mkEntry (removelast (tl linebuf)) (Key ent) (Value ent)) s
  else
    match GoBytes.IndexByte linebuf EQUALS with
    | Some idx =>
        let ent := mkEntry (Section_ ent)
                     (GoBytes.TrimSpace (firstn idx linebuf))
                     (GoBytes.TrimSpace (skipn (idx + 1) linebuf)) in
        match cb ent s with
        | (s', Some err) => Return err s'
        | (s', None) => Continue [] ent s'
        end
    | None => Return (ErrInvalidLine linebuf) s
    end.

(** The loop over the scanner's tokens; [serr] is what [scanner.Err()]
    returns when the tokens are exhausted. *)
Fixpoint loop (toks : list bytes) (serr : option error)
    (linebuf : bytes) (ent : Entry) (s : St) : St * option error :=
  match toks with
  | [] => (s, serr)
  | tok :: toks' =>
      match body tok linebuf ent s with
      | Continue linebuf' ent' s' => loop toks' serr linebuf' ent' s'
      | Return err s' => (s', Some err)
      end
  end.

(** The loop cut short: the tokens [toks] run through the loop body, and
    the state the loop is in behind them ([Continue]), or what [Read]
    returned on the way ([Return]). *)
Fixpoint steps (toks : list bytes) (linebuf : bytes) (ent : Entry) (s : St)
    : control :=
  match toks with
  | [] => Continue linebuf ent s
  | tok :: toks' =>
      match body tok linebuf ent s with
      | Continue linebuf' ent' s' => steps toks' linebuf' ent' s'
      | Return err s' => Return err s'
      end
  end.

(** [Read(r, cb)] for a reader [r] that delivers [data]: the state of the
    callback when [Read] returns, and the error returned ([None] is
    [nil]). *)
Definition Read (data : bytes) (s : St) : St * option error :=
  let (toks, serr) := Bufio.Scanner data in
  loop toks serr [] zeroEntry s.

End Read.

(** The callback of the tests: [got = append(got, ent); return nil]. *)
Definition collect (ent : Entry) (got : list Entry) : list Entry * option error :=
  (got ++ [ent], None).

(** *** [Write] (ini.go, lines 106-145) *)

Section Write.

(** The sink [w io.Writer]: [W] is its state, and one call of [w.Write(p)]
    yields the new state, the byte count and the error. *)
Context {W : Type}.
Variable wWrite : bytes -> W -> W * (N * option error).

Record errWriter : Type := mkErrWriter {
  err : option error;
  w : W
}.

(** [(e *errWriter) Write] (ini.go, line 111). *)
Definition errWriter_Write (p : bytes) (e : errWriter)
    : errWriter * (N * option error) :=
  match err e with
  | Some x => (e, (0%N, Some x))
  | None =>
      let '(w', (n, r)) := wWrite p (w e) in
      (mkErrWriter r w', (n, r))
  end.

(** [fmt.Fprint], [fmt.Fprintf] and [fmt.Fprintln] format into a buffer of
    their own and hand it to the writer in one call of [Write]; ini.go
    drops what they return. *)
Definition Fprint (p : bytes) (e : errWriter) : errWriter :=
  fst (errWriter_Write p e).

(** The variables the closure passed to [cb] captures. *)
Record wstate : Type := mkWstate {
  section : bytes;
  wrote : bool;
  ew : errWriter
}.

(** The closure [func(ent Entry)] passed to the producer. *)
Definition emit (st : wstate) (ent : Entry) : wstate :=
  let st :=
    if bytes_eq_dec (Section_ ent) (section st) then st
    else
      let e := if wrote st then Fprint [LF] (ew st) else ew st in
      let e := Fprint ([LBRACKET] ++ escape (Section_ ent) ++ [RBRACKET; LF]) e in
      mkWstate (Section_ ent) (wrote st) e in
  let e := ew st in
  let e := if (0 <? len (Key ent))%N
           then Fprint (escape (Key ent) ++ [SP]) e else e in
  let e := Fprint [EQUALS] e in
  let e := if (0 <? len (Value ent))%N
           then Fprint ([SP] ++ escape (Value ent)) e else e in
  let e := Fprint [LF] e in
  mkWstate (section st) true e.

(** [Write(w, cb)] for a producer [cb] that calls [emit] on the entries
    [ents] in turn: the state of the sink when [Write] returns, and the
    error returned. *)
Definition Write (w0 : W) (ents : list Entry) : W * option error :=
  let st := fold_left emit ents (mkWstate [] false (mkErrWriter None w0)) in
  (w (ew st), err (ew st)).

End Write.

(** [bytes.Buffer] as a sink: [Write] appends and never fails. *)
Definition Buffer_Write (p : bytes) (buf : bytes) : bytes * (N * option error) :=
  (buf ++ p, (len p, None)).

(** The text [Write] produces into an empty [bytes.Buffer]. *)
Definition WriteString (ents : list Entry) : bytes :=
  fst (Write Buffer_Write [] ents).

(** The entries [Read] delivers to an appending callback. *)
Definition ReadEntries (data : bytes) : list Entry * option error :=
  Read collect data [].

(** ** Notions used to state the properties *)

(** A byte below [utf8.RuneSelf]. *)
Definition isAscii (b : byte) : bool := (Byte.to_N b <? 128)%N.

(** A slice that does not end with a white-space rune. *)
Definition notEndsSpace (s : bytes) : Prop :=
  GoBytes.spaceWidthRev (rev s) = 0.

(** A line the scanner's buffer can hold. *)
Definition short (l : bytes) : Prop := (len l < Bufio.MaxScanTokenSize)%N.

(** A line buffer the loop body classifies: it is not blank, and it does
    not end with a backslash (its continuations are resolved). *)
Definition complete (line : bytes) : Prop :=
  GoBytes.TrimSpace line <> [] /\ lastb line <> BACKSLASH.

(** A section header: [linebuf[0] == '[' && linebuf[len(linebuf)-1] == ']']. *)
Definition bracketed (line : bytes) : Prop :=
  first line = LBRACKET /\ lastb line = RBRACKET.

(** What a run of raw lines that all end with a backslash adds to the line
    buffer: each line with its backslash replaced by a newline. *)
Definition joined (conts : list bytes) : bytes :=
  concat (map (fun c => removelast c ++ [LF]) conts).

(** A callback with a log: the state of [traced cb] is the state of [cb]
    together with the calls made so far, each with the entry passed and the
    error returned. *)
Definition traced {St : Type} (cb : Entry -> St -> St * option error)
    (ent : Entry) (st : St * list (Entry * option error))
    : (St * list (Entry * option error)) * option error :=
  let (s', r) := cb ent (fst st) in ((s', snd st ++ [(ent, r)]), r).

(** The state a callback is in after it has been called on [ents] in turn. *)
Definition replay {St : Type} (cb : Entry -> St -> St * option error)
    (ents : list Entry) (s : St) : St :=
  fold_left (fun s e => fst (cb e s)) ents s.

(** A sink with a log: the state of [logged wWrite] is the state of the sink
    together with the calls of its [Write] made so far, each with the bytes
    passed and the error returned. *)
Definition logged {W : Type} (wWrite : bytes -> W -> W * (N * option error))
    (p : bytes) (st : W * list (bytes * option error))
    : (W * list (bytes * option error)) * (N * option error) :=
  let '(w', (n, r)) := wWrite p (fst st) in ((w', snd st ++ [(p, r)]), (n, r)).

(** No call in the log returned an error. *)
Definition allNil {A : Type} (log : list (A * option error)) : Prop :=
  Forall (fun c => snd c = None) log.

(** The writer a logged writer stands for. *)
Definition unlog {W : Type} (e : @errWriter (W * list (bytes * option error)))
    : @errWriter W :=
  mkErrWriter (err e) (fst (w e)).

Definition unlog_state {W : Type}
    (st : @wstate (W * list (bytes * option error))) : @wstate W :=
  mkWstate (section st) (wrote st) (unlog (ew st)).

(** The log of a writer is free of errors while its [err] is nil, and ends
    with the call that set [err] afterwards. *)
Definition logInv {W : Type}
    (e : @errWriter (W * list (bytes * option error))) : Prop :=
  (err e = None /\ allNil (snd (w e)))
  \/ (exists l p x,
        snd (w e) = l ++ [(p, Some x)] /\ allNil l /\ err e = Some x).

(** The line [Write] writes for an entry, before [escape]: the key and one
    space unless the key is empty, '=', and one space and the value unless
    the value is empty. *)
Definition entryLine (e : Entry) : bytes :=
  (if (0 <? len (Key e))%N then Key e ++ [SP] else [])
  ++ [EQUALS]
  ++ (if (0 <? len (Value e))%N then [SP] ++ Value e else []).

(** The line [Write] writes for a section, before [escape]. *)
Definition headerLine (sec : bytes) : bytes := [LBRACKET] ++ sec ++ [RBRACKET].

(** The raw lines of an escaped line: the text is cut at its newlines, and
    every part but the last ends with the backslash [escape] has added. *)
Fixpoint pieces (line : bytes) : list bytes :=
  match line with
  | [] => [[]]
  | b :: line' =>
      if Byte.eqb b LF then [BACKSLASH] :: pieces line'
      else match pieces line' with
           | l :: ls => (b :: l) :: ls
           | [] => [[b]]
           end
  end.

(** The text [Write] writes for [ents] when its variables [section] and
    [wrote] hold [sec] and [wr]. *)
Fixpoint render (sec : bytes) (wr : bool) (ents : list Entry) : bytes :=
  match ents with
  | [] => []
  | e :: es =>
      (if bytes_eq_dec (Section_ e) sec then []
       else (if wr then [LF] else [])
            ++ escape (headerLine (Section_ e)) ++ [LF])
      ++ escape (entryLine e) ++ [LF]
      ++ render (Section_ e) true es
  end.

(** What holds of every entry [Read] delivers: key and value are trimmed,
    and the key holds no '='. *)
Definition trimmed (e : Entry) : Prop :=
  GoBytes.TrimSpace (Key e) = Key e /\
  ~ In EQUALS (Key e) /\
  GoBytes.TrimSpace (Value e) = Value e.

(** An entry whose written line [Read] takes for an entry again: the key
    does not start with '#', the value does not end with a backslash, and
    the line is not one that starts with '[' and ends with ']'. *)
Definition rereadable (e : Entry) : Prop :=
  first (Key e) <> HASH /\
  lastb (Value e) <> BACKSLASH /\
  ~ (first (Key e) = LBRACKET /\ lastb (Value e) = RBRACKET).

(** A callback that appends the entry and fails on the key [k]. *)
Definition stopAt (k : bytes) (ent : Entry) (got : list Entry)
    : list Entry * option error :=
  (got ++ [ent],
   if bytes_eq_dec (Key ent) k then Some (ErrOther "stop") else None).

(** A sink that takes [n] calls of [Write] and fails from then on: its
    state is what it has taken and the number of calls it still takes. *)
Definition fullAfter (p : bytes) (st : bytes * nat)
    : (bytes * nat) * (N * option error) :=
  match snd st with
  | O => (st, (0%N, Some (ErrOther "full")))
  | S n => ((fst st ++ p, n), (len p, None))
  end.

(** The table of ini_test.go: each stream as [testCase.Reader] hands it to
    [Read] (the two tabs in front of every line removed), with the entries
    expected. *)
Definition tests : list (bytes * list Entry) :=
  [ ([], []);
    (bs "=", [mkEntry [] [] []]);
    ([LF] ++ bs "foo = bar" ++ [LF; TAB],
     [mkEntry [] (bs "foo") (bs "bar")]);
    ([LF] ++ bs "[table]" ++ [LF] ++ bs "foo = bar" ++ [LF] ++ bs "baz = bif"
       ++ [LF; TAB],
     [mkEntry (bs "table") (bs "foo") (bs "bar");
      mkEntry (bs "table") (bs "baz") (bs "bif")]);
    ([LF] ++ bs "# a comment" ++ [LF] ++ bs "foo = bar" ++ [LF; TAB],
     [mkEntry [] (bs "foo") (bs "bar")]);
    ([LF] ++ bs "# multi line \" ++ [LF] ++ bs "comment" ++ [LF]
       ++ bs "foo = bar" ++ [LF; TAB],
     [mkEntry [] (bs "foo") (bs "bar")]);
    ([LF] ++ bs "foo = bar\" ++ [LF] ++ bs "multi line" ++ [LF; TAB],
     [mkEntry [] (bs "foo") (bs "bar" ++ [LF] ++ bs "multi line")]);
    ([LF] ++ bs "foo = bar\" ++ [LF; TAB] ++ bs "multi line with whitespace"
       ++ [LF; TAB],
     [mkEntry [] (bs "foo")
        (bs "bar" ++ [LF; TAB] ++ bs "multi line with whitespace")]);
    ([LF] ++ bs "[multi line\" ++ [LF] ++ bs "table]" ++ [LF] ++ bs "foo = bar"
       ++ [LF; TAB],
     [mkEntry (bs "multi line" ++ [LF] ++ bs "table") (bs "foo") (bs "bar")]);
    ([LF] ++ bs "# multiple" ++ [LF] ++ bs "# comments" ++ [LF]
       ++ bs "foo = bar" ++ [LF; TAB],
     [mkEntry [] (bs "foo") (bs "bar")]);
    ([LF] ++ bs "# empty lines are ignored" ++ [LF; LF] ++ bs "foo = bar"
       ++ [LF; LF; TAB],
     [mkEntry [] (bs "foo") (bs "bar")]);
    ([LF] ++ bs "[table1]" ++ [LF] ++ bs "foo = bar" ++ [LF; LF]
       ++ bs "[table2]" ++ [LF] ++ bs "foo = bar" ++ [LF; TAB],
     [mkEntry (bs "table1") (bs "foo") (bs "bar");
      mkEntry (bs "table2") (bs "foo") (bs "bar")]);
    ([LF] ++ bs "[table1]" ++ [LF] ++ bs "foo = bar" ++ [LF; LF]
       ++ bs "[]" ++ [LF] ++ bs "foo = reset table" ++ [LF; TAB],
     [mkEntry (bs "table1") (bs "foo") (bs "bar");
      mkEntry [] (bs "foo") (bs "reset table")]) ].

(** A key of 65533 bytes 'k'. *)
Definition longKey : bytes := x6b :: repeat x6b (N.to_nat 65532).

(** ** Notions used to state the further properties *)

(** The stream with a carriage return put in front of every newline. *)
Fixpoint toCRLF (data : bytes) : bytes :=
  match data with
  | [] => []
  | b :: rest => if Byte.eqb b LF then CR :: LF :: toCRLF rest
                 else b :: toCRLF rest
  end.

(** The entry the loop body builds from a line buffer that holds an '='
    (ini.go, lines 90-92), under the section [sec]. *)
Definition parseLine (sec line : bytes) : Entry :=
  match GoBytes.IndexByte line EQUALS with
  | Some idx =>
      mkEntry sec (GoBytes.TrimSpace (firstn idx line))
        (GoBytes.TrimSpace (skipn (idx + 1) line))
  | None => mkEntry sec [] []
  end.

(** A raw line that is an entry line by itself: complete, no comment, no
    section header, and with an '='. *)
Definition entryToken (tok : bytes) : Prop :=
  complete tok /\ first tok <> HASH /\ ~ bracketed tok /\ In EQUALS tok.

(** The chunks [Write] hands to a [bytes.Buffer], one per call of the
    buffer's [Write]. *)
Definition WriteChunks (ents : list Entry) : list bytes :=
  map fst (snd (fst (Write (logged Buffer_Write) ([], []) ents))).

(** The chunks handed to a logged sink so far are the first of the chunks
    handed to a logged buffer, and all of them while the sink has not
    failed. *)
Definition chunksAgree {W : Type}
    (e1 : @errWriter (W * list (bytes * option error)))
    (e2 : @errWriter (bytes * list (bytes * option error))) : Prop :=
  err e2 = None /\
  concat (map fst (snd (w e2))) = fst (w e2) /\
  exists rest,
    map fst (snd (w e2)) = map fst (snd (w e1)) ++ rest /\
    (err e1 = None -> rest = []).

(** *** The helpers of ini_test.go *)

Module GoTest.

(** [strings.Split(s, "\n")]: the parts of [s] between its newlines; there
    is always at least one part. *)
Fixpoint Split (s : bytes) : list bytes :=
  match s with
  | [] => [[]]
  | b :: t =>
      if Byte.eqb b LF then [] :: Split t
      else match Split t with
           | l :: ls => (b :: l) :: ls
           | [] => [[b]]
           end
  end.

(** [strings.Join(a, "\n")]. *)
Fixpoint Join (a : list bytes) : bytes :=
  match a with
  | [] => []
  | [x] => x
  | x :: xs => x ++ LF :: Join xs
  end.

(** [strings.TrimPrefix(v, "\t\t")]. *)
Definition TrimPrefix (v : bytes) : bytes :=
  match v with
  | x09 :: x09 :: r => r
  | _ => v
  end.

(** [(t testCase) Reader] (ini_test.go, line 66): the bytes the reader
    delivers. *)
Definition Reader (Data : bytes) : bytes :=
  Join (map TrimPrefix (Split Data)).

(** The loop of [NormalizedData] (ini_test.go, lines 55-62) over the lines
    that are left, with the value of [inMultilineComment]; [None] is the
    panic of [v[len(v)-1]] on an empty line. *)
Fixpoint normalize (inMultilineComment : bool) (data : list bytes)
    : option (list bytes) :=
  match data with
  | [] => Some []
  | v :: rest =>
      let v := TrimPrefix v in
      if ((0 <? len v)%N && Byte.eqb (first v) HASH) || inMultilineComment then
        if (len v =? 0)%N then None
        else option_map (cons []) (normalize (Byte.eqb (lastb v) BACKSLASH) rest)
      else option_map (cons v) (normalize inMultilineComment rest)
  end.

(** [(t testCase) NormalizedData] (ini_test.go, line 52). *)
Definition NormalizedData (Data : bytes) : option bytes :=
  option_map (fun data => GoBytes.TrimSpace (Join data))
    (normalize false (Split Data)).

(** What [NormalizedData] makes of the lines when none of them ends with a
    backslash: a line that starts with '#' becomes empty. *)
Definition blankComment (v : bytes) : bytes :=
  if (0 <? len (TrimPrefix v))%N && Byte.eqb (first (TrimPrefix v)) HASH
  then [] else TrimPrefix v.

(** The table [tests] (ini_test.go, line 76) with [Data] as it is written
    there, two tabs in front of every line. *)
Definition rawTests : list (bytes * list Entry) :=
  [ ([], []);
    (bs "=", [mkEntry [] [] []]);
    ([LF; TAB; TAB] ++ bs "foo = bar" ++ [LF; TAB],
     [mkEntry [] (bs "foo") (bs "bar")]);
    ([LF; TAB; TAB] ++ bs "[table]" ++ [LF; TAB; TAB] ++ bs "foo = bar"
       ++ [LF; TAB; TAB] ++ bs "baz = bif" ++ [LF; TAB],
     [mkEntry (bs "table") (bs "foo") (bs "bar");
      mkEntry (bs "table") (bs "baz") (bs "bif")]);
    ([LF; TAB; TAB] ++ bs "# a comment" ++ [LF; TAB; TAB] ++ bs "foo = bar"
       ++ [LF; TAB],
     [mkEntry [] (bs "foo") (bs "bar")]);
    ([LF; TAB; TAB] ++ bs "# multi line \" ++ [LF; TAB; TAB] ++ bs "comment"
       ++ [LF; TAB; TAB] ++ bs "foo = bar" ++ [LF; TAB],
     [mkEntry [] (bs "foo") (bs "bar")]);
    ([LF; TAB; TAB] ++ bs "foo = bar\" ++ [LF; TAB; TAB] ++ bs "multi line"
       ++ [LF; TAB],
     [mkEntry [] (bs "foo") (bs "bar" ++ [LF] ++ bs "multi line")]);
    ([LF; TAB; TAB] ++ bs "foo = bar\" ++ [LF; TAB; TAB; TAB]
       ++ bs "multi line with whitespace" ++ [LF; TAB],
     [mkEntry [] (bs "foo")
        (bs "bar" ++ [LF; TAB] ++ bs "multi line with whitespace")]);
    ([LF; TAB; TAB] ++ bs "[multi line\" ++ [LF; TAB; TAB] ++ bs "table]"
       ++ [LF; TAB; TAB] ++ bs "foo = bar" ++ [LF; TAB],
     [mkEntry (bs "multi line" ++ [LF] ++ bs "table") (bs "foo") (bs "bar")]);
    ([LF; TAB; TAB] ++ bs "# multiple" ++ [LF; TAB; TAB] ++ bs "# comments"
       ++ [LF; TAB; TAB] ++ bs "foo = bar" ++ [LF; TAB],
     [mkEntry [] (bs "foo") (bs "bar")]);
    ([LF; TAB; TAB] ++ bs "# empty lines are ignored" ++ [LF; LF; TAB; TAB]
       ++ bs "foo = bar" ++ [LF; LF; TAB],
     [mkEntry [] (bs "foo") (bs "bar")]);
    ([LF; TAB; TAB] ++ bs "[table1]" ++ [LF; TAB; TAB] ++ bs "foo = bar"
       ++ [LF; LF; TAB; TAB] ++ bs "[table2]" ++ [LF; TAB; TAB]
       ++ bs "foo = bar" ++ [LF; TAB],
     [mkEntry (bs "table1") (bs "foo") (bs "bar");
      mkEntry (bs "table2") (bs "foo") (bs "bar")]);
    ([LF; TAB; TAB] ++ bs "[table1]" ++ [LF; TAB; TAB] ++ bs "foo = bar"
       ++ [LF; LF; TAB; TAB] ++ bs "[]" ++ [LF; TAB; TAB]
       ++ bs "foo = reset table" ++ [LF; TAB],
     [mkEntry (bs "table1") (bs "foo") (bs "bar");
      mkEntry [] (bs "foo") (bs "reset table")]) ].

(** What [TestRead] asserts of a row of the table: [Read] returns nil, and
    the entries appended by the callback are the entries of the row. *)
Definition TestRead_row (t : bytes * list Entry) : Prop :=
  Read collect (Reader (fst t)) [] = (snd t, None).

(** What [TestWrite_RoundTrip] asserts of a row: [Write] into a buffer
    returns nil, the buffer trimmed is [NormalizedData], and [Read] on the
    buffer returns nil with the entries of the row. *)
Definition TestWrite_RoundTrip_row (t : bytes * list Entry) : Prop :=
  exists buf,
    Write Buffer_Write [] (snd t) = (buf, None) /\
    NormalizedData (fst t) = Some (GoBytes.TrimSpace buf) /\
    Read collect buf [] = (snd t, None).

End GoTest.

(** * Properties of the library models *)

(** ** Lists of bytes *)

Lemma byte_eqb_spec (a b : byte) : reflect (a = b) (Byte.eqb a b).
Proof.
  destruct (Byte.eqb a b) eqn:E; constructor.
  - now apply Byte.byte_dec_bl.
  - intros ->. now rewrite (Byte.byte_dec_lb eq_refl) in E.
Qed.

Lemma byte_eqb_refl (a : byte) : Byte.eqb a a = true.
Proof. now apply Byte.byte_dec_lb. Qed.

Lemma byte_eqb_neq (a b : byte) : a <> b -> Byte.eqb a b = false.
Proof. intros H. now destruct (byte_eqb_spec a b). Qed.

Lemma len_zero_iff (s : bytes) : (len s =? 0)%N = true <-> s = [].
Proof.
  unfold len. rewrite N.eqb_eq. destruct s; simpl; split; intros H;
    try reflexivity; try discriminate; lia.
Qed.

Lemma len_zero_false (s : bytes) : s <> [] -> (len s =? 0)%N = false.
Proof.
  intros H. destruct (len s =? 0)%N eqn:E; [|reflexivity].
  now apply len_zero_iff in E.
Qed.

Lemma len_pos_iff (s : bytes) : (0 <? len s)%N = true <-> s <> [].
Proof.
  unfold len. rewrite N.ltb_lt. destruct s; simpl; split; intros H;
    try congruence; try lia.
Qed.

Lemma lastb_app_single (s : bytes) (b : byte) : lastb (s ++ [b]) = b.
Proof. unfold lastb. apply last_last. Qed.

Lemma lastb_app (s t : bytes) : t <> [] -> lastb (s ++ t) = lastb t.
Proof.
  intros H. destruct (exists_last H) as [t' [b ->]].
  now rewrite app_assoc, !lastb_app_single.
Qed.

Lemma lastb_cons (b : byte) (t : bytes) : t <> [] -> lastb (b :: t) = lastb t.
Proof. intros H. apply (lastb_app [b] t H). Qed.

Lemma first_app (s t : bytes) : s <> [] -> first (s ++ t) = first s.
Proof. now destruct s. Qed.

Lemma last_split (s : bytes) : s <> [] -> s = removelast s ++ [lastb s].
Proof. intros H. now apply app_removelast_last. Qed.

(** ** [bytes.TrimSpace] *)

Module TrimFacts.
Import GoBytes.

Section DropSpaces.
Variable width : bytes -> nat.
Hypothesis width_le : forall s, width s <= length s.
Hypothesis width_app : forall a b, width a <> 0 -> width (a ++ b) = width a.

Lemma dropSpaces_id fuel s : width s = 0 -> dropSpaces width fuel s = s.
Proof. intros H. destruct fuel; simpl; [|rewrite H]; reflexivity. Qed.

Lemma dropSpaces_step fuel s :
  width s <> 0 ->
  dropSpaces width (S fuel) s = dropSpaces width fuel (skipn (width s) s).
Proof. intros H. simpl. now destruct (width s). Qed.

Lemma dropSpaces_suffix fuel : forall s,
  exists p, s = p ++ dropSpaces width fuel s.
Proof.
  induction fuel as [|fuel IH]; intros s; [now exists []|].
  destruct (Nat.eq_dec (width s) 0) as [E|E].
  - rewrite dropSpaces_id by exact E. now exists [].
  - rewrite dropSpaces_step by exact E.
    destruct (IH (skipn (width s) s)) as [p Hp].
    exists (firstn (width s) s ++ p).
    rewrite <- app_assoc, <- Hp. symmetry. apply firstn_skipn.
Qed.

Lemma dropSpaces_stable fuel : forall s,
  length s <= fuel -> width (dropSpaces width fuel s) = 0.
Proof.
  induction fuel as [|fuel IH]; intros s Hl.
  - simpl. pose proof (width_le s). lia.
  - destruct (Nat.eq_dec (width s) 0) as [E|E].
    + now rewrite dropSpaces_id.
    + rewrite dropSpaces_step by exact E. apply IH.
      rewrite length_skipn. lia.
Qed.

(** A prefix that starts with white space makes the whole start with
    it: a non-empty prefix of a slice that does not start with white
    space does not start with it either. *)
Lemma width_prefix a b : a = [] \/ width (a ++ b) = 0 -> width a = 0.
Proof.
  intros [-> | H].
  - pose proof (width_le []). simpl in *. lia.
  - destruct (Nat.eq_dec (width a) 0) as [E|E]; [exact E|].
    rewrite width_app in H; [exact H | exact E].
Qed.
End DropSpaces.

Lemma spaceWidth_le s : spaceWidth s <= length s.
Proof.
  destruct s as [|a [|b [|c t]]]; [simpl; lia| | |].
  - destruct a; simpl; lia.
  - destruct a; simpl; try lia; destruct b; simpl; lia.
  - destruct a; simpl; try lia; destruct b; simpl; try lia;
      destruct c; simpl; lia.
Qed.

Lemma spaceWidthRev_le s : spaceWidthRev s <= length s.
Proof.
  destruct s as [|a [|b [|c t]]]; [simpl; lia| | |].
  - destruct a; simpl; lia.
  - destruct a; simpl; try lia; destruct b; simpl; lia.
  - destruct a; simpl; try lia; destruct b; simpl; try lia;
      destruct c; simpl; lia.
Qed.

Lemma spaceWidth_app a b : spaceWidth a <> 0 -> spaceWidth (a ++ b) = spaceWidth a.
Proof.
  destruct a as [|a0 [|a1 [|a2 t]]]; [simpl; congruence| | |].
  - destruct a0; simpl; congruence.
  - destruct a0; simpl; try congruence; destruct a1; simpl; congruence.
  - destruct a0; simpl; try congruence; destruct a1; simpl; try congruence;
      destruct a2; simpl; congruence.
Qed.

Lemma spaceWidthRev_app a b :
  spaceWidthRev a <> 0 -> spaceWidthRev (a ++ b) = spaceWidthRev a.
Proof.
  destruct a as [|a0 [|a1 [|a2 t]]]; [simpl; congruence| | |].
  - destruct a0; simpl; congruence.
  - destruct a0; simpl; try congruence; destruct a1; simpl; congruence.
  - destruct a0; simpl; try congruence; destruct a1; simpl; try congruence;
      destruct a2; simpl; congruence.
Qed.

(** No byte below 128 occurs inside the encoding of a white-space rune
    of more than one byte: putting such a byte behind a non-empty slice
    does not change whether the slice starts (or, read backwards, ends)
    with white space. *)
Lemma spaceWidth_ascii a c y :
  a <> [] -> isAscii c = true -> spaceWidth (a ++ c :: y) = spaceWidth a.
Proof.
  intros Ha Hc.
  destruct a as [|a0 [|a1 [|a2 t]]]; [congruence| | |].
  - destruct a0; simpl; try reflexivity;
      destruct c; simpl in *; try reflexivity; discriminate.
  - destruct a0; simpl; try reflexivity; destruct a1; simpl; try reflexivity;
      destruct c; simpl in *; try reflexivity; discriminate.
  - destruct a0; simpl; try reflexivity; destruct a1; simpl; try reflexivity;
      destruct a2; simpl; reflexivity.
Qed.

Lemma spaceWidthRev_ascii a c y :
  a <> [] -> isAscii c = true -> spaceWidthRev (a ++ c :: y) = spaceWidthRev a.
Proof.
  intros Ha Hc.
  destruct a as [|a0 [|a1 [|a2 t]]]; [congruence| | |].
  - destruct a0; simpl; try reflexivity;
      destruct c; simpl in *; try reflexivity; discriminate.
  - destruct a0; simpl; try reflexivity; destruct a1; simpl; try reflexivity;
      destruct c; simpl in *; try reflexivity; discriminate.
  - destruct a0; simpl; try reflexivity; destruct a1; simpl; try reflexivity;
      destruct a2; simpl; reflexivity.
Qed.

(** A slice that is exactly one white-space rune ends with it. *)
Lemma spaceWidth_exact s :
  s <> [] -> spaceWidth s = length s -> spaceWidthRev (rev s) <> 0.
Proof.
  intros Hs H.
  destruct s as [|a [|b [|c [|d t]]]]; [congruence| | | |].
  - destruct a; simpl in *; congruence.
  - destruct a; simpl in *; try congruence; destruct b; simpl in *; congruence.
  - destruct a; simpl in *; try congruence; destruct b; simpl in *;
      try congruence; destruct c; simpl in *; congruence.
  - pose proof (spaceWidth_app [a; b; c] (d :: t)) as Happ.
    assert (Hle : spaceWidth [a; b; c] <= 3) by apply (spaceWidth_le [a; b; c]).
    destruct (Nat.eq_dec (spaceWidth [a; b; c]) 0) as [E|E].
    + exfalso. revert H E. clear.
      destruct a; simpl; try congruence; destruct b; simpl; try congruence;
        destruct c; simpl; congruence.
    + specialize (Happ E). simpl app in Happ. rewrite Happ in H.
      simpl length in H. lia.
Qed.

Lemma TrimLeft_suffix s : exists p, s = p ++ TrimLeft s.
Proof. apply dropSpaces_suffix. Qed.

Lemma TrimRight_prefix s : exists q, s = TrimRight s ++ q.
Proof.
  unfold TrimRight.
  destruct (dropSpaces_suffix spaceWidthRev (length s) (rev s)) as [p Hp].
  exists (rev p). rewrite <- rev_app_distr, <- Hp. symmetry. apply rev_involutive.
Qed.

Lemma TrimLeft_id s : spaceWidth s = 0 -> TrimLeft s = s.
Proof. apply dropSpaces_id. Qed.

Lemma TrimRight_id s : notEndsSpace s -> TrimRight s = s.
Proof.
  intros H. unfold TrimRight. rewrite dropSpaces_id by exact H.
  apply rev_involutive.
Qed.

Lemma TrimLeft_stable s : spaceWidth (TrimLeft s) = 0.
Proof. apply dropSpaces_stable; [apply spaceWidth_le | reflexivity]. Qed.

Lemma TrimRight_stable s : notEndsSpace (TrimRight s).
Proof.
  unfold notEndsSpace, TrimRight. rewrite rev_involutive.
  apply dropSpaces_stable; [apply spaceWidthRev_le | now rewrite length_rev].
Qed.

(** A non-empty suffix of a slice that does not end with white space does
    not end with it either. *)
Lemma notEndsSpace_suffix p t : t <> [] -> notEndsSpace (p ++ t) -> notEndsSpace t.
Proof.
  unfold notEndsSpace. intros Ht H. rewrite rev_app_distr in H.
  apply (width_prefix spaceWidthRev spaceWidthRev_le spaceWidthRev_app (rev t) (rev p)).
  now right.
Qed.

Lemma TrimLeft_nil s : TrimLeft s = [] -> s = [] \/ ~ notEndsSpace s.
Proof.
  unfold TrimLeft. generalize (length s) as fuel.
  intros fuel; revert s. induction fuel as [|fuel IH]; intros s H.
  - now left.
  - destruct (Nat.eq_dec (spaceWidth s) 0) as [E|E].
    + rewrite dropSpaces_id in H by exact E. now left.
    + rewrite dropSpaces_step in H by exact E. right.
      assert (Hs : s <> []) by (intros ->; now apply E).
      destruct (IH _ H) as [Hn | Hn].
      * apply spaceWidth_exact; [exact Hs|].
        pose proof (spaceWidth_le s).
        assert (length (skipn (spaceWidth s) s) = 0) by now rewrite Hn.
        rewrite length_skipn in *. lia.
      * intros Hend. apply Hn.
        apply (notEndsSpace_suffix (firstn (spaceWidth s) s)).
        -- intros Hnil. apply Hn. now rewrite Hnil.
        -- now rewrite firstn_skipn.
Qed.

(** A non-empty slice that does not end with white space is not blank:
    [TrimSpace] only removes its leading white space. *)
Lemma TrimSpace_notEndsSpace s :
  s <> [] -> notEndsSpace s -> TrimSpace s = TrimLeft s /\ TrimSpace s <> [].
Proof.
  intros Hs Hend. unfold TrimSpace.
  assert (Ht : TrimLeft s <> []).
  { intros H. destruct (TrimLeft_nil _ H); tauto. }
  destruct (TrimLeft_suffix s) as [p Hp].
  assert (notEndsSpace (TrimLeft s)).
  { apply (notEndsSpace_suffix p); [exact Ht | now rewrite <- Hp]. }
  rewrite TrimRight_id by assumption. now split.
Qed.

Lemma nonblank s : s <> [] -> notEndsSpace s -> (len (TrimSpace s) =? 0)%N = false.
Proof.
  intros Hs Hend. apply len_zero_false. now apply TrimSpace_notEndsSpace.
Qed.

(** What it means for a slice to be trimmed. *)
Lemma TrimSpace_fixed s :
  TrimSpace s = s <-> spaceWidth s = 0 /\ notEndsSpace s.
Proof.
  split.
  - intros H.
    destruct (TrimLeft_suffix s) as [p Hp].
    destruct (TrimRight_prefix (TrimLeft s)) as [q Hq].
    fold (TrimSpace s) in Hq. rewrite H in Hq.
    assert (Hlen : length s = length p + (length s + length q)).
    { rewrite Hp at 1. rewrite Hq at 1. now rewrite !length_app. }
    assert (p = []) by (apply length_zero_iff_nil; lia).
    subst p. simpl in Hp. split.
    + rewrite Hp. apply TrimLeft_stable.
    + rewrite <- H. apply TrimRight_stable.
  - intros [H1 H2]. unfold TrimSpace.
    rewrite TrimLeft_id by exact H1. now apply TrimRight_id.
Qed.

Lemma TrimSpace_idempotent s : TrimSpace (TrimSpace s) = TrimSpace s.
Proof.
  apply TrimSpace_fixed. split; [|apply TrimRight_stable].
  destruct (TrimRight_prefix (TrimLeft s)) as [q Hq].
  apply (width_prefix spaceWidth spaceWidth_le spaceWidth_app (TrimSpace s) q).
  right. unfold TrimSpace at 1. rewrite <- Hq. apply TrimLeft_stable.
Qed.

Lemma TrimSpace_nil : TrimSpace [] = [].
Proof. reflexivity. Qed.

Lemma TrimRight_space s : TrimRight (s ++ [SP]) = TrimRight s.
Proof.
  unfold TrimRight. rewrite rev_app_distr, length_app, Nat.add_comm.
  change (rev [SP] ++ rev s) with (SP :: rev s).
  change (length [SP] + length s) with (S (length s)).
  rewrite dropSpaces_step by (simpl; congruence). reflexivity.
Qed.

Lemma TrimLeft_space s : TrimLeft (SP :: s) = TrimLeft s.
Proof.
  unfold TrimLeft. change (length (SP :: s)) with (S (length s)).
  rewrite dropSpaces_step by (simpl; congruence). reflexivity.
Qed.

(** The key of a written entry is read back: [Write] puts one space
    behind it. *)
Lemma TrimSpace_key k : TrimSpace k = k -> TrimSpace (k ++ [SP]) = k.
Proof.
  intros H. destruct k as [|b k']; [reflexivity|].
  pose proof H as Hf. apply TrimSpace_fixed in Hf. destruct Hf as [H1 H2].
  unfold TrimSpace. rewrite TrimLeft_id.
  - rewrite TrimRight_space. now apply TrimRight_id.
  - rewrite spaceWidth_ascii; [exact H1 | congruence | reflexivity].
Qed.

(** The value of a written entry is read back: [Write] puts one space
    in front of it. *)
Lemma TrimSpace_value v : TrimSpace v = v -> TrimSpace (SP :: v) = v.
Proof.
  intros H. unfold TrimSpace. rewrite TrimLeft_space. exact H.
Qed.
(** A trimmed slice behind a byte below 128 still does not end with
    white space. *)
Lemma notEndsSpace_after x c v :
  v <> [] -> isAscii c = true -> notEndsSpace v -> notEndsSpace (x ++ c :: v).
Proof.
  unfold notEndsSpace. intros Hv Hc H.
  replace (rev (x ++ c :: v)) with (rev v ++ c :: rev x).
  - rewrite spaceWidthRev_ascii; [exact H | | exact Hc].
    intros E. apply Hv. apply (f_equal (@rev byte)) in E.
    now rewrite rev_involutive in E.
  - rewrite rev_app_distr. simpl. now rewrite <- app_assoc.
Qed.

Lemma notEndsSpace_last s b :
  spaceWidthRev [b] = 0 -> isAscii b = true -> notEndsSpace (s ++ [b]).
Proof.
  unfold notEndsSpace. intros H Hb. rewrite rev_app_distr. simpl rev. simpl app.
  destruct (rev s) as [|c r]; [exact H|].
  change (b :: c :: r) with ([b] ++ c :: r).
  revert H Hb. clear. destruct b; simpl; intros; try reflexivity; discriminate.
Qed.

(** The last byte of a trimmed slice is no ASCII white space; in
    particular it is no carriage return. *)
Lemma notEndsSpace_lastb v : v <> [] -> notEndsSpace v -> lastb v <> CR.
Proof.
  intros Hv H E. unfold notEndsSpace in H.
  rewrite (last_split v Hv), E, rev_app_distr in H. discriminate H.
Qed.

(** [TrimSpace] returns a sub-slice. *)
Lemma TrimSpace_incl s b : In b (TrimSpace s) -> In b s.
Proof.
  intros H. destruct (TrimLeft_suffix s) as [p Hp].
  destruct (TrimRight_prefix (TrimLeft s)) as [q Hq].
  rewrite Hp, Hq. apply in_or_app. right. apply in_or_app. now left.
Qed.

End TrimFacts.

(** ** The scanner *)

Module ScanFacts.
Import Bufio.

Lemma rawLines_nil_iff data : rawLines data = [] <-> data = [].
Proof.
  destruct data as [|b rest]; simpl; [tauto|].
  split; [|discriminate].
  destruct (Byte.eqb b LF); [discriminate|].
  destruct (rawLines rest); discriminate.
Qed.

(** A line that ends with a newline. *)
Lemma rawLines_terminated l rest :
  ~ In LF l -> rawLines (l ++ LF :: rest) = l :: rawLines rest.
Proof.
  induction l as [|b l IH]; intros H; simpl.
  - reflexivity.
  - rewrite byte_eqb_neq by (intros ->; apply H; now left).
    rewrite IH; [reflexivity|]. intros Hin. apply H. now right.
Qed.

(** Text after the last newline is a line of its own. *)
Lemma rawLines_final l : l <> [] -> ~ In LF l -> rawLines l = [l].
Proof.
  induction l as [|b l IH]; intros Hl H; [congruence|]. simpl.
  rewrite byte_eqb_neq by (intros ->; apply H; now left).
  destruct l as [|c l]; [reflexivity|].
  rewrite IH; [reflexivity | discriminate |].
  intros Hin. apply H. now right.
Qed.

Lemma rawLines_app d x :
  d = [] \/ lastb d = LF -> rawLines (d ++ x) = rawLines d ++ rawLines x.
Proof.
  induction d as [|b d IH]; intros H; [reflexivity|].
  destruct H as [H|H]; [discriminate|].
  assert (IH' : rawLines (d ++ x) = rawLines d ++ rawLines x).
  { apply IH. destruct d as [|c d]; [now left|right].
    rewrite <- H. symmetry. apply lastb_cons. discriminate. }
  simpl. rewrite IH'. destruct (byte_eqb_spec b LF) as [->|Hb]; [reflexivity|].
  destruct (rawLines d) as [|l ls] eqn:E; [|reflexivity].
  apply rawLines_nil_iff in E. subst d. now elim Hb.
Qed.

(** The final line need not end with a newline. *)
Lemma rawLines_unterminated data :
  data <> [] -> lastb data <> LF -> rawLines (data ++ [LF]) = rawLines data.
Proof.
  induction data as [|b d IH]; intros Hd Hl; [congruence|].
  destruct d as [|c d].
  - simpl. rewrite byte_eqb_neq by exact Hl. reflexivity.
  - change ((b :: c :: d) ++ [LF]) with (b :: ((c :: d) ++ [LF])).
    change (rawLines (b :: (c :: d) ++ [LF])) with
      (if Byte.eqb b LF then [] :: rawLines ((c :: d) ++ [LF])
       else match rawLines ((c :: d) ++ [LF]) with
            | [] => [[b]]
            | l :: ls => (b :: l) :: ls
            end).
    rewrite IH; [reflexivity | discriminate |].
    rewrite <- (lastb_cons b (c :: d)); [exact Hl | discriminate].
Qed.

Lemma dropCR_id l : lastb l <> CR -> dropCR l = l.
Proof.
  intros H. unfold dropCR. rewrite (byte_eqb_neq _ _ H).
  now rewrite andb_false_r.
Qed.

Lemma scan_short ls :
  Forall short ls -> scan ls = (map dropCR ls, None).
Proof.
  induction 1 as [|l ls Hl _ IH]; [reflexivity|]. simpl.
  unfold short in Hl. apply N.leb_gt in Hl. rewrite Hl, IH. reflexivity.
Qed.

(** One more line behind lines that were scanned. *)
Lemma scan_snoc ls l :
  short l ->
  scan (ls ++ [l]) =
    (fst (scan ls) ++ match snd (scan ls) with
                      | None => [dropCR l]
                      | Some _ => []
                      end,
     snd (scan ls)).
Proof.
  intros Hl. induction ls as [|a ls IH]; simpl.
  - unfold short in Hl. apply N.leb_gt in Hl. now rewrite Hl.
  - destruct (MaxScanTokenSize <=? len a)%N; [reflexivity|].
    rewrite IH. now destruct (scan ls) as [toks e].
Qed.

End ScanFacts.

(** * Properties of [Read] *)

Module IndexFacts.
Import GoBytes.

Lemma IndexByte_first pre c post :
  ~ In c pre -> IndexByte (pre ++ c :: post) c = Some (length pre).
Proof.
  induction pre as [|b pre IH]; intros H; simpl.
  - now rewrite byte_eqb_refl.
  - rewrite byte_eqb_neq by (intros ->; apply H; now left).
    rewrite IH; [reflexivity|]. intros Hin. apply H. now right.
Qed.

Lemma IndexByte_None s c : IndexByte s c = None <-> ~ In c s.
Proof.
  induction s as [|b s IH]; simpl; [tauto|].
  destruct (byte_eqb_spec b c) as [->|Hb].
  - split; [discriminate|]. intros H. elim H. now left.
  - destruct (IndexByte s c); simpl.
    + split; [discriminate|]. intros H. exfalso.
      destruct IH as [_ IH]. assert (~ In c s) by tauto.
      specialize (IH H0). discriminate.
    + split; [|reflexivity]. intros _ [E|E]; [congruence|].
      now apply IH.
Qed.

Lemma IndexByte_Some s c idx :
  IndexByte s c = Some idx ->
  exists post, s = firstn idx s ++ c :: post /\ ~ In c (firstn idx s)
               /\ skipn (idx + 1) s = post.
Proof.
  revert idx. induction s as [|b s IH]; intros idx; simpl; [discriminate|].
  destruct (byte_eqb_spec b c) as [->|Hb].
  - intros [= <-]. exists s. simpl. tauto.
  - destruct (IndexByte s c) as [i|]; [|discriminate].
    intros [= <-]. destruct (IH i eq_refl) as [post [H1 [H2 H3]]].
    exists post. simpl. repeat split.
    + now rewrite <- H1.
    + intros [E|E]; [congruence | tauto].
    + exact H3.
Qed.

Lemma split_at_first (pre : bytes) (c : byte) (post : bytes) :
  firstn (length pre) (pre ++ c :: post) = pre /\
  skipn (length pre + 1) (pre ++ c :: post) = post.
Proof.
  split.
  - rewrite firstn_app, Nat.sub_diag, firstn_all. simpl. apply app_nil_r.
  - rewrite skipn_app, skipn_all2 by lia.
    replace (length pre + 1 - length pre) with 1 by lia. reflexivity.
Qed.
End IndexFacts.

Section BodyFacts.
Import GoBytes TrimFacts IndexFacts.
Context {St : Type}.
Variable cb : Entry -> St -> St * option error.

Lemma loop_app pre post serr linebuf ent s :
  loop cb (pre ++ post) serr linebuf ent s =
    match steps cb pre linebuf ent s with
    | Continue linebuf' ent' s' => loop cb post serr linebuf' ent' s'
    | Return err s' => (s', Some err)
    end.
Proof.
  revert linebuf ent s. induction pre as [|tok pre IH]; intros; simpl.
  - reflexivity.
  - destruct (body cb tok linebuf ent s); [apply IH | reflexivity].
Qed.

Lemma loop_steps toks serr linebuf ent s :
  loop cb toks serr linebuf ent s =
    match steps cb toks linebuf ent s with
    | Continue _ _ s' => (s', serr)
    | Return err s' => (s', Some err)
    end.
Proof.
  rewrite <- (app_nil_r toks) at 1. rewrite loop_app.
  now destruct (steps cb toks linebuf ent s).
Qed.

(** The body only looks at the buffer with the token appended. *)
Lemma body_joined tok linebuf ent s :
  body cb tok linebuf ent s = body cb [] (linebuf ++ tok) ent s.
Proof. unfold body. now rewrite app_nil_r. Qed.

Lemma body_blank tok linebuf ent s :
  TrimSpace (linebuf ++ tok) = [] ->
  body cb tok linebuf ent s = Continue (linebuf ++ tok) ent s.
Proof.
  intros H. unfold body. cbv zeta. rewrite H.
  now rewrite orb_true_r.
Qed.

Lemma body_empty ent s : body cb [] [] ent s = Continue [] ent s.
Proof. reflexivity. Qed.

Lemma nonblank_test line :
  TrimSpace line <> [] ->
  (len line =? 0)%N || (len (TrimSpace line) =? 0)%N = false.
Proof.
  intros H. rewrite (len_zero_false (TrimSpace line) H), orb_false_r.
  apply len_zero_false. intros ->. now apply H.
Qed.

Lemma body_continuation tok linebuf ent s :
  lastb tok = BACKSLASH ->
  body cb tok linebuf ent s =
    Continue (linebuf ++ removelast tok ++ [LF]) ent s.
Proof.
  intros H.
  assert (Ht : tok <> []) by (intros ->; discriminate H).
  assert (Hl : linebuf ++ tok = (linebuf ++ removelast tok) ++ [BACKSLASH]).
  { rewrite (last_split tok Ht) at 1. now rewrite H, app_assoc. }
  unfold body. cbv zeta. rewrite nonblank_test.
  - rewrite Hl, lastb_app_single, byte_eqb_refl, removelast_last.
    now rewrite <- app_assoc.
  - rewrite Hl. apply TrimSpace_notEndsSpace.
    + now destruct (linebuf ++ removelast tok).
    + now apply notEndsSpace_last.
Qed.

Lemma body_comment tok linebuf ent s :
  complete (linebuf ++ tok) -> first (linebuf ++ tok) = HASH ->
  body cb tok linebuf ent s = Continue [] ent s.
Proof.
  intros [Hb Hl] Hf. unfold body. cbv zeta.
  rewrite nonblank_test by exact Hb.
  rewrite (byte_eqb_neq _ _ Hl), Hf. reflexivity.
Qed.

Lemma body_section tok linebuf ent s mid :
  linebuf ++ tok = LBRACKET :: mid ++ [RBRACKET] ->
  body cb tok linebuf ent s =
    Continue [] (mkEntry mid (Key ent) (Value ent)) s.
Proof.
  intros H. unfold body. cbv zeta. rewrite H.
  change (LBRACKET :: mid ++ [RBRACKET]) with ((LBRACKET :: mid) ++ [RBRACKET]).
  rewrite nonblank_test.
  - rewrite lastb_app_single. simpl first.
    change (tl ((LBRACKET :: mid) ++ [RBRACKET])) with (mid ++ [RBRACKET]).
    replace (removelast (mid ++ [RBRACKET])) with mid
      by (symmetry; apply removelast_last).
    reflexivity.
  - apply TrimSpace_notEndsSpace; [discriminate|].
    now apply notEndsSpace_last.
Qed.

Lemma body_entry tok linebuf ent s pre post :
  linebuf ++ tok = pre ++ EQUALS :: post -> ~ In EQUALS pre ->
  complete (linebuf ++ tok) ->
  first (linebuf ++ tok) <> HASH ->
  ~ bracketed (linebuf ++ tok) ->
  body cb tok linebuf ent s =
    let e := mkEntry (Section_ ent) (TrimSpace pre) (TrimSpace post) in
    match cb e s with
    | (s', Some err) => Return err s'
    | (s', None) => Continue [] e s'
    end.
Proof.
  intros H Hpre [Hb Hl] Hh Hs. unfold body. cbv zeta.
  rewrite nonblank_test by exact Hb.
  rewrite (byte_eqb_neq _ _ Hl), (byte_eqb_neq _ _ Hh).
  replace (Byte.eqb (first (linebuf ++ tok)) LBRACKET
           && Byte.eqb (lastb (linebuf ++ tok)) RBRACKET) with false.
  - rewrite H, (IndexByte_first pre EQUALS post Hpre).
    destruct (split_at_first pre EQUALS post) as [-> ->]. reflexivity.
  - symmetry. apply andb_false_iff.
    destruct (byte_eqb_spec (first (linebuf ++ tok)) LBRACKET) as [E1|E1];
      [|now left].
    destruct (byte_eqb_spec (lastb (linebuf ++ tok)) RBRACKET) as [E2|E2];
      [|now right].
    elim Hs. now split.
Qed.

Lemma body_invalid tok linebuf ent s :
  complete (linebuf ++ tok) ->
  first (linebuf ++ tok) <> HASH ->
  ~ bracketed (linebuf ++ tok) ->
  ~ In EQUALS (linebuf ++ tok) ->
  body cb tok linebuf ent s = Return (ErrInvalidLine (linebuf ++ tok)) s.
Proof.
  intros [Hb Hl] Hh Hs He. unfold body. cbv zeta.
  rewrite nonblank_test by exact Hb.
  rewrite (byte_eqb_neq _ _ Hl), (byte_eqb_neq _ _ Hh).
  replace (Byte.eqb (first (linebuf ++ tok)) LBRACKET
           && Byte.eqb (lastb (linebuf ++ tok)) RBRACKET) with false.
  - apply IndexByte_None in He. now rewrite He.
  - symmetry. apply andb_false_iff.
    destruct (byte_eqb_spec (first (linebuf ++ tok)) LBRACKET) as [E1|E1];
      [|now left].
    destruct (byte_eqb_spec (lastb (linebuf ++ tok)) RBRACKET) as [E2|E2];
      [|now right].
    elim Hs. now split.
Qed.

End BodyFacts.

(** * Properties of the specification *)

Section LoopProperties.
Import GoBytes TrimFacts IndexFacts ScanFacts.
Context {St : Type}.
Variable cb : Entry -> St -> St * option error.

Lemma loop_cons tok toks serr linebuf ent s :
  loop cb (tok :: toks) serr linebuf ent s =
    match body cb tok linebuf ent s with
    | Continue linebuf' ent' s' => loop cb toks serr linebuf' ent' s'
    | Return err s' => (s', Some err)
    end.
Proof. reflexivity. Qed.

Lemma bracketed_inv line :
  bracketed line -> exists mid, line = LBRACKET :: mid ++ [RBRACKET].
Proof.
  intros [Hf Hl]. destruct line as [|b t]; [discriminate Hf|].
  simpl in Hf. subst b. destruct t as [|c t]; [discriminate Hl|].
  rewrite lastb_cons in Hl by discriminate.
  exists (removelast (c :: t)). rewrite <- Hl.
  f_equal. apply last_split. discriminate.
Qed.

(** C3. A complete line buffer that is no comment and no section header
    and holds an '=' makes the loop body call the callback once, on the
    entry whose Key is the trimmed text before the first '=', whose Value
    is the trimmed text behind it (further '=' included), and whose
    Section is the current section; the loop goes on with an empty line
    buffer unless the callback fails.  Under a traced callback the log
    grows by that one call. *)
Theorem C3_key_value_entry tok toks serr linebuf ent s pre post :
  linebuf ++ tok = pre ++ EQUALS :: post -> ~ In EQUALS pre ->
  complete (linebuf ++ tok) ->
  first (linebuf ++ tok) <> HASH ->
  ~ bracketed (linebuf ++ tok) ->
  let e := mkEntry (Section_ ent) (TrimSpace pre) (TrimSpace post) in
  body cb tok linebuf ent s =
    match cb e s with
    | (s', Some err) => Return err s'
    | (s', None) => Continue [] e s'
    end /\
  loop cb (tok :: toks) serr linebuf ent s =
    match cb e s with
    | (s', Some err) => (s', Some err)
    | (s', None) => loop cb toks serr [] e s'
    end /\
  forall log,
    body (traced cb) tok linebuf ent (s, log) =
      match cb e s with
      | (s', Some err) => Return err (s', log ++ [(e, Some err)])
      | (s', None) => Continue [] e (s', log ++ [(e, None)])
      end.
Proof.
  intros H Hpre Hc Hh Hb e.
  pose proof (body_entry cb tok linebuf ent s pre post H Hpre Hc Hh Hb) as Hbody.
  cbv zeta in Hbody. fold e in Hbody. split; [exact Hbody|]. split.
  - rewrite loop_cons, Hbody. now destruct (cb e s) as [s' [err|]].
  - intros log.
    rewrite (body_entry (traced cb) tok linebuf ent (s, log) pre post
               H Hpre Hc Hh Hb).
    cbv zeta. fold e. unfold traced. cbn [fst snd].
    now destruct (cb e s) as [s' [err|]].
Qed.

(** C4. Raw lines that end with a backslash are joined to what follows:
    each has its backslash replaced by a newline, nothing else is removed
    and nothing else is put between the lines, the callback is not
    called, and the raw line behind them is classified together with
    them as one line. *)
Theorem C4_continuation_join conts tok toks serr linebuf ent s :
  Forall (fun c => lastb c = BACKSLASH) conts ->
  steps cb conts linebuf ent s = Continue (linebuf ++ joined conts) ent s /\
  loop cb (conts ++ tok :: toks) serr linebuf ent s =
    loop cb ((joined conts ++ tok) :: toks) serr linebuf ent s.
Proof.
  intros H.
  assert (Hs : steps cb conts linebuf ent s
               = Continue (linebuf ++ joined conts) ent s).
  { revert linebuf. induction H as [|c conts Hc _ IH]; intros linebuf.
    - simpl. now rewrite app_nil_r.
    - simpl. rewrite body_continuation by exact Hc. rewrite IH.
      unfold joined. simpl. now rewrite <- !app_assoc. }
  split; [exact Hs|].
  rewrite loop_app, Hs, !loop_cons.
  rewrite (body_joined cb tok), (body_joined cb (joined conts ++ tok)).
  now rewrite app_assoc.
Qed.

(** C5. A line buffer that starts with '[' and ends with ']' sets the
    current section to the bytes between the two, whatever they are; the
    callback is not called, and the loop goes on with an empty line
    buffer. *)
Theorem C5_section_header tok toks serr linebuf ent s :
  bracketed (linebuf ++ tok) ->
  exists mid,
    linebuf ++ tok = LBRACKET :: mid ++ [RBRACKET] /\
    body cb tok linebuf ent s =
      Continue [] (mkEntry mid (Key ent) (Value ent)) s /\
    loop cb (tok :: toks) serr linebuf ent s =
      loop cb toks serr [] (mkEntry mid (Key ent) (Value ent)) s.
Proof.
  intros H. destruct (bracketed_inv _ H) as [mid Hmid]. exists mid.
  pose proof (body_section cb tok linebuf ent s mid Hmid) as Hbody.
  repeat split; [exact Hmid | exact Hbody |].
  now rewrite loop_cons, Hbody.
Qed.

(** C6. When the tokens in front of a token have run through the loop
    and the line buffer with that token is complete but no comment, no
    section header and without '=', [Read] returns the invalid-line error
    with the line buffer as it is; the callback is left in the state it
    had in front of that token, whatever follows in the stream. *)
Theorem C6_malformed_line data s0 pre tok post serr linebuf ent s :
  Bufio.Scanner data = (pre ++ tok :: post, serr) ->
  steps cb pre [] zeroEntry s0 = Continue linebuf ent s ->
  complete (linebuf ++ tok) ->
  first (linebuf ++ tok) <> HASH ->
  ~ bracketed (linebuf ++ tok) ->
  ~ In EQUALS (linebuf ++ tok) ->
  body cb tok linebuf ent s = Return (ErrInvalidLine (linebuf ++ tok)) s /\
  Read cb data s0 = (s, Some (ErrInvalidLine (linebuf ++ tok))).
Proof.
  intros Hscan Hpre Hc Hh Hb He.
  pose proof (body_invalid cb tok linebuf ent s Hc Hh Hb He) as Hbody.
  split; [exact Hbody|].
  unfold Read. rewrite Hscan, loop_app, Hpre, loop_cons, Hbody. reflexivity.
Qed.

(** C9. A final raw line that ends with a backslash, with or without a
    newline behind it, is never classified: [Read] returns what it
    returns for the stream without that line, and leaves the callback in
    the same state.  On the empty stream [Read] returns nil without
    calling the callback. *)
Theorem C9_dangling_continuation data tail s :
  data = [] \/ lastb data = LF ->
  ~ In LF tail -> lastb tail = BACKSLASH -> short tail ->
  Read cb (data ++ tail) s = Read cb data s /\
  Read cb (data ++ tail ++ [LF]) s = Read cb data s /\
  Read cb [] s = (s, None).
Proof.
  intros Hd Hnl Hl Hs.
  assert (Ht : tail <> []) by (intros ->; discriminate Hl).
  assert (Hlines : Bufio.rawLines (data ++ tail) = Bufio.rawLines data ++ [tail]).
  { rewrite rawLines_app by exact Hd. now rewrite (rawLines_final tail). }
  assert (Hlines' : Bufio.rawLines (data ++ tail ++ [LF])
                    = Bufio.rawLines data ++ [tail]).
  { rewrite rawLines_app by exact Hd. now rewrite rawLines_terminated. }
  assert (Hread : forall d, Bufio.rawLines d = Bufio.rawLines data ++ [tail] ->
                            Read cb d s = Read cb data s).
  { intros d E. unfold Read, Bufio.Scanner. rewrite E, scan_snoc by exact Hs.
    destruct (Bufio.scan (Bufio.rawLines data)) as [toks e]. simpl fst. simpl snd.
    destruct e as [e|]; [now rewrite app_nil_r|].
    rewrite loop_app, (loop_steps cb toks).
    destruct (steps cb toks [] zeroEntry s) as [b en s'|err s']; [|reflexivity].
    rewrite loop_cons, dropCR_id by (rewrite Hl; discriminate).
    now rewrite body_continuation. }
  repeat split; [now apply Hread | now apply Hread].
Qed.

(** C10. A stream whose last line has no newline behind it is read like
    the same stream with the newline added. *)
Theorem C10_unterminated_final_line data s :
  data <> [] -> lastb data <> LF ->
  Read cb data s = Read cb (data ++ [LF]) s.
Proof.
  intros Hd Hl. unfold Read, Bufio.Scanner.
  now rewrite rawLines_unterminated.
Qed.

End LoopProperties.

(** ** Logs of calls *)

Lemma allNil_snoc {A : Type} (log : list (A * option error)) (a : A) :
  allNil log -> allNil (log ++ [(a, None)]).
Proof.
  intros H. apply Forall_app. split; [exact H|]. now constructor.
Qed.

(** In a log that is free of errors, or free of them up to its last call,
    a call that returned an error is the last one. *)
Lemma failure_is_last {A : Type} (log : list (A * option error))
    (res : option error) :
  allNil log \/
  (exists l a x, log = l ++ [(a, Some x)] /\ allNil l /\ res = Some x) ->
  forall pre a x post,
    log = pre ++ (a, Some x) :: post -> post = [] /\ res = Some x.
Proof.
  intros H pre a x post E.
  assert (Hbad : forall l, allNil l -> forall post',
            l = pre ++ (a, Some x) :: post' -> False).
  { intros l Hl post' El. rewrite El in Hl. apply Forall_app in Hl.
    destruct Hl as [_ Hl]. inversion Hl as [|? ? Hx _]. discriminate Hx. }
  destruct H as [Hall | [l [a' [x' [El [Hall ->]]]]]].
  - exfalso. now apply (Hbad log Hall post).
  - rewrite El in E. destruct post as [|y post] using rev_ind.
    + apply app_inj_tail in E. destruct E as [_ E]. split; congruence.
    + exfalso. clear IHpost.
      change (pre ++ (a, Some x) :: post ++ [y])
        with (pre ++ ((a, Some x) :: post) ++ [y]) in E.
      rewrite app_assoc in E. apply app_inj_tail in E. destruct E as [E _].
      now apply (Hbad l Hall post).
Qed.

(** ** Failures of the callback *)

Section CallbackFailure.
Context {St : Type}.
Variable cb : Entry -> St -> St * option error.

(** One pass through the loop body under a traced callback: the callback is
    not called, or it is called once and the call is logged; the callback
    itself sees the same calls as without the log. *)
Lemma body_traced tok linebuf ent s log :
  (exists b e,
     body (traced cb) tok linebuf ent (s, log) = Continue b e (s, log) /\
     body cb tok linebuf ent s = Continue b e s)
  \/ (body (traced cb) tok linebuf ent (s, log)
        = Return (ErrInvalidLine (linebuf ++ tok)) (s, log) /\
      body cb tok linebuf ent s = Return (ErrInvalidLine (linebuf ++ tok)) s)
  \/ (exists e s',
        cb e s = (s', None) /\
        body (traced cb) tok linebuf ent (s, log)
          = Continue [] e (s', log ++ [(e, None)]) /\
        body cb tok linebuf ent s = Continue [] e s')
  \/ (exists e s' err,
        cb e s = (s', Some err) /\
        body (traced cb) tok linebuf ent (s, log)
          = Return err (s', log ++ [(e, Some err)]) /\
        body cb tok linebuf ent s = Return err s').
Proof.
  unfold body. cbv zeta.
  destruct ((len (linebuf ++ tok) =? 0)%N
            || (len (GoBytes.TrimSpace (linebuf ++ tok)) =? 0)%N);
    [left; eauto|].
  destruct (Byte.eqb (lastb (linebuf ++ tok)) BACKSLASH); [left; eauto|].
  destruct (Byte.eqb (first (linebuf ++ tok)) HASH); [left; eauto|].
  destruct (Byte.eqb (first (linebuf ++ tok)) LBRACKET
            && Byte.eqb (lastb (linebuf ++ tok)) RBRACKET); [left; eauto|].
  destruct (GoBytes.IndexByte (linebuf ++ tok) EQUALS) as [idx|];
    [|right; left; split; reflexivity].
  right; right. unfold traced. simpl fst. simpl snd.
  match goal with |- context [cb ?e s] => destruct (cb e s) as [s' [err|]] eqn:E end.
  - right. eexists _, s', err. split; [exact E|]. split; reflexivity.
  - left. eexists _, s'. split; [exact E|]. split; reflexivity.
Qed.

Lemma replay_snoc ents e s0 :
  replay cb (ents ++ [e]) s0 = fst (cb e (replay cb ents s0)).
Proof. unfold replay. now rewrite fold_left_app. Qed.

(** What the loop does with the log. *)
Lemma loop_traced toks serr s0 : forall linebuf ent s log s' log' res,
  s = replay cb (map fst log) s0 -> allNil log ->
  loop (traced cb) toks serr linebuf ent (s, log) = ((s', log'), res) ->
  loop cb toks serr linebuf ent s = (s', res) /\
  s' = replay cb (map fst log') s0 /\
  ((allNil log' /\
    (res = None ->
     serr = None /\
     exists b e,
       steps (traced cb) toks linebuf ent (s, log) = Continue b e (s', log')))
   \/ (exists l e err,
         log' = l ++ [(e, Some err)] /\ allNil l /\ res = Some err)).
Proof.
  induction toks as [|tok toks IH]; intros linebuf ent s log s' log' res Hs Hlog H.
  - simpl in H. injection H as <- <- <-. simpl. repeat split; [exact Hs|].
    left. split; [exact Hlog|]. intros ->. split; [reflexivity|]. now eexists _, _.
  - simpl in H. simpl loop. simpl steps.
    destruct (body_traced tok linebuf ent s log)
      as [[b [e [Ht Hc]]] | [[Ht Hc] | [[e [s1 [E [Ht Hc]]]] | [e [s1 [err [E [Ht Hc]]]]]]]];
      rewrite Ht in *; rewrite Hc.
    + now apply IH.
    + injection H as <- <- <-. repeat split; [exact Hs|].
      left. split; [exact Hlog | discriminate].
    + apply IH; [| now apply allNil_snoc | exact H].
      rewrite map_app. simpl (map fst [_]). rewrite replay_snoc.
      now rewrite <- Hs, E.
    + injection H as <- <- <-. repeat split.
      * rewrite map_app. simpl (map fst [_]). rewrite replay_snoc.
      now rewrite <- Hs, E.
      * right. now exists log, e, err.
Qed.

(** C7. Under a traced callback: [Read] returns what it returns for the
    callback itself, and leaves it in the state reached by the logged calls
    (nothing delivered is taken back); a call that failed is the last call
    made, and its error is what [Read] returns; and [Read] returns nil only
    if the scanner came to the end of the stream without an error, all its
    tokens ran through the loop body, and no call failed. *)
Theorem C7_callback_failure data s0 s' log res :
  Read (traced cb) data (s0, []) = ((s', log), res) ->
  Read cb data s0 = (s', res) /\
  s' = replay cb (map fst log) s0 /\
  (forall pre e err post,
     log = pre ++ (e, Some err) :: post -> post = [] /\ res = Some err) /\
  (res = None ->
   snd (Bufio.Scanner data) = None /\
   allNil log /\
   exists b e,
     steps (traced cb) (fst (Bufio.Scanner data)) [] zeroEntry (s0, [])
       = Continue b e (s', log)).
Proof.
  unfold Read. destruct (Bufio.Scanner data) as [toks serr]. intros H.
  destruct (loop_traced toks serr s0 [] zeroEntry s0 [] s' log res eq_refl
              (Forall_nil _) H) as [H1 [H2 H3]].
  split; [exact H1|]. split; [exact H2|]. split.
  - apply failure_is_last. destruct H3 as [[Hall _] | Hl]; [now left | now right].
  - intros ->. repeat split.
    + destruct H3 as [[_ Hn] | [l [e' [err' [_ [_ E]]]]]]; [|discriminate].
      now destruct (Hn eq_refl).
    + destruct H3 as [[Hall _] | [l [e' [err' [_ [_ E]]]]]];
        [exact Hall | discriminate].
    + destruct H3 as [[_ Hn] | [l [e' [err' [_ [_ E]]]]]]; [|discriminate].
      now destruct (Hn eq_refl).
Qed.

End CallbackFailure.

(** ** Failures of the sink *)

Section SinkFailure.
Context {W : Type}.
Variable wWrite : bytes -> W -> W * (N * option error).

Lemma errWriter_Write_suppressed p (e : @errWriter W) x :
  err e = Some x -> errWriter_Write wWrite p e = (e, (0%N, Some x)).
Proof. intros H. unfold errWriter_Write. now rewrite H. Qed.

Lemma Fprint_logged p e e0 :
  logInv e /\ unlog e = e0 ->
  logInv (Fprint (logged wWrite) p e) /\
  unlog (Fprint (logged wWrite) p e) = Fprint wWrite p e0.
Proof.
  intros [H <-]. unfold Fprint, errWriter_Write, unlog. simpl err. simpl w.
  destruct e as [er [w0 log]]. simpl in *.
  destruct er as [x|].
  - simpl. split; [exact H | reflexivity].
  - unfold logged. simpl fst. simpl snd.
    destruct (wWrite p w0) as [w' [n r]]. simpl. split; [|reflexivity].
    destruct H as [[_ Hall] | [l [q [x [_ [_ Hx]]]]]]; [|discriminate].
    destruct r as [x|].
    + right. now exists log, p, x.
    + left. split; [reflexivity | now apply allNil_snoc].
Qed.

Lemma Fprint_if_logged (c : bool) p e e0 :
  logInv e /\ unlog e = e0 ->
  logInv (if c then Fprint (logged wWrite) p e else e) /\
  unlog (if c then Fprint (logged wWrite) p e else e)
    = if c then Fprint wWrite p e0 else e0.
Proof. destruct c; [apply Fprint_logged | trivial]. Qed.

Lemma emit_logged st ent :
  logInv (ew st) ->
  logInv (ew (emit (logged wWrite) st ent)) /\
  unlog_state (emit (logged wWrite) st ent) = emit wWrite (unlog_state st) ent.
Proof.
  intros H. destruct st as [sec wr e]. simpl in H.
  assert (He : logInv e /\ unlog e = unlog e) by now split.
  unfold emit, unlog_state. cbn [section wrote ew].
  destruct (bytes_eq_dec (Section_ ent) sec) as [E|E]; cbn [section wrote ew].
  - match goal with
    | |- logInv ?a /\ mkWstate _ _ (unlog ?a) = mkWstate _ _ ?b =>
        assert (Hab : logInv a /\ unlog a = b)
    end.
    { repeat first [apply Fprint_logged | apply Fprint_if_logged]. exact He. }
    destruct Hab as [Ha Hb]. split; [exact Ha | now rewrite Hb].
  - match goal with
    | |- logInv ?a /\ mkWstate _ _ (unlog ?a) = mkWstate _ _ ?b =>
        assert (Hab : logInv a /\ unlog a = b)
    end.
    { repeat first [apply Fprint_logged | apply Fprint_if_logged]. exact He. }
    destruct Hab as [Ha Hb]. split; [exact Ha | now rewrite Hb].
Qed.

Lemma fold_emit_logged ents : forall st,
  logInv (ew st) ->
  logInv (ew (fold_left (emit (logged wWrite)) ents st)) /\
  unlog_state (fold_left (emit (logged wWrite)) ents st)
    = fold_left (emit wWrite) ents (unlog_state st).
Proof.
  induction ents as [|ent ents IH]; intros st H; simpl.
  - now split.
  - destruct (emit_logged st ent H) as [Hi Hu].
    destruct (IH _ Hi) as [Hi' Hu']. split; [exact Hi'|]. now rewrite Hu', Hu.
Qed.

(** C8. Under a logged sink: [Write] returns what it returns for the sink
    itself and leaves it in the same state; a call of the sink's [Write]
    that failed is the last call made to it, and its error is what [Write]
    returns; if no call failed, [Write] returns nil; and once [err] is set,
    [errWriter.Write] leaves the writer as it is and returns that error. *)
Theorem C8_write_failure w0 ents w' log res :
  Write (logged wWrite) (w0, []) ents = ((w', log), res) ->
  Write wWrite w0 ents = (w', res) /\
  (forall pre p x post,
     log = pre ++ (p, Some x) :: post -> post = [] /\ res = Some x) /\
  (allNil log -> res = None) /\
  (forall p (e : @errWriter W) x,
     err e = Some x -> errWriter_Write wWrite p e = (e, (0%N, Some x))).
Proof.
  unfold Write. intros H.
  destruct (fold_emit_logged ents
              (mkWstate [] false (mkErrWriter None (w0, []))))
    as [Hi Hu].
  { left. split; [reflexivity | constructor]. }
  set (st := fold_left (emit (logged wWrite)) ents _) in *.
  injection H as Hw Hres.
  change (mkWstate [] false (mkErrWriter None w0))
    with (unlog_state (mkWstate [] false (mkErrWriter None (w0, [])))).
  rewrite <- Hu. unfold unlog_state, unlog. simpl ew. simpl w. simpl err.
  rewrite Hw, Hres. simpl fst.
  assert (Hlog : snd (w (ew st)) = log) by now rewrite Hw.
  unfold logInv in Hi. rewrite Hlog, Hres in Hi.
  split; [reflexivity|]. split; [|split].
  - apply failure_is_last.
    destruct Hi as [[_ Hall] | Hl]; [now left | now right].
  - intros Hall. destruct Hi as [[E _] | [l [p [x [El [_ E]]]]]]; [exact E|].
    exfalso. rewrite El in Hall. apply Forall_app in Hall.
    destruct Hall as [_ Hall]. inversion Hall as [|? ? Hx _]. discriminate Hx.
  - apply errWriter_Write_suppressed.
Qed.

End SinkFailure.

(** ** What [Write] writes *)

Section WriteText.
Import GoBytes TrimFacts ScanFacts.

Lemma escape_app a b : escape (a ++ b) = escape a ++ escape b.
Proof.
  unfold escape. induction a as [|x a IH]; simpl; [reflexivity|].
  destruct (Byte.eqb x LF); simpl; now rewrite IH.
Qed.

Lemma Fprint_Buffer p buf :
  Fprint Buffer_Write p (mkErrWriter None buf) = mkErrWriter None (buf ++ p).
Proof. reflexivity. Qed.

Lemma emit_Buffer sec wr buf e :
  emit Buffer_Write (mkWstate sec wr (mkErrWriter None buf)) e
  = mkWstate (Section_ e) true
      (mkErrWriter None (buf ++ render sec wr [e])).
Proof.
  unfold emit, render, entryLine, headerLine. cbn [section wrote ew].
  rewrite !escape_app.
  change (escape [SP]) with [SP]. change (escape [EQUALS]) with [EQUALS].
  change (escape [LBRACKET]) with [LBRACKET].
  change (escape [RBRACKET]) with [RBRACKET].
  destruct (bytes_eq_dec (Section_ e) sec) as [E|E]; cbn [section wrote ew];
    [rewrite E|]; destruct wr;
    destruct (0 <? len (Key e))%N; destruct (0 <? len (Value e))%N;
    rewrite ?Fprint_Buffer; rewrite ?escape_app; change (escape [SP]) with [SP];
    cbn [escape GoStrings.ReplaceNewlines app];
    repeat (progress (rewrite <- ?app_assoc; cbn [app])); rewrite ?app_nil_r;
    reflexivity.
Qed.

Lemma render_cons sec wr e es :
  render sec wr (e :: es) = render sec wr [e] ++ render (Section_ e) true es.
Proof.
  cbn [render]. rewrite app_nil_r.
  repeat (progress (rewrite <- ?app_assoc; cbn [app])). reflexivity.
Qed.

Lemma fold_emit_Buffer es : forall sec wr buf,
  ew (fold_left (emit Buffer_Write) es (mkWstate sec wr (mkErrWriter None buf)))
  = mkErrWriter None (buf ++ render sec wr es).
Proof.
  induction es as [|e es IH]; intros sec wr buf.
  - simpl. now rewrite app_nil_r.
  - cbn [fold_left]. rewrite emit_Buffer, IH, (render_cons sec wr e es).
    now rewrite <- app_assoc.
Qed.

Lemma WriteString_render es : WriteString es = render [] false es.
Proof.
  unfold WriteString, Write. now rewrite fold_emit_Buffer.
Qed.

(** A buffer never fails. *)
Lemma Write_Buffer es :
  Write Buffer_Write [] es = (WriteString es, None).
Proof.
  unfold WriteString, Write. now rewrite fold_emit_Buffer.
Qed.

End WriteText.

(** ** Reading a written line back *)

Section ReadBack.
Import GoBytes TrimFacts ScanFacts.
Context {St : Type}.
Variable cb : Entry -> St -> St * option error.

Lemma pieces_not_nil line : pieces line <> [].
Proof.
  destruct line as [|b line]; simpl; [discriminate|].
  destruct (Byte.eqb b LF); [discriminate|].
  destruct (pieces line); discriminate.
Qed.

Lemma rawLines_escape line rest :
  Bufio.rawLines (escape line ++ LF :: rest) = pieces line ++ Bufio.rawLines rest.
Proof.
  unfold escape. induction line as [|b line IH].
  - reflexivity.
  - cbn [GoStrings.ReplaceNewlines pieces].
    destruct (byte_eqb_spec b LF) as [->|Hb].
    + cbn [app Bufio.rawLines]. rewrite byte_eqb_refl.
      change (Byte.eqb BACKSLASH LF) with false. cbn iota.
      rewrite IH. reflexivity.
    + cbn [app Bufio.rawLines]. rewrite (byte_eqb_neq _ _ Hb), IH.
      pose proof (pieces_not_nil line). now destruct (pieces line).
Qed.

(** The scanner leaves the raw lines of an escaped line as they are when
    the line does not end with a carriage return. *)
Lemma dropCR_pieces line :
  lastb line <> CR -> map Bufio.dropCR (pieces line) = pieces line.
Proof.
  induction line as [|b line IH]; intros H; [reflexivity|].
  assert (IH' : map Bufio.dropCR (pieces line) = pieces line).
  { destruct line as [|c line]; [reflexivity|].
    apply IH. rewrite <- (lastb_cons b (c :: line)); [exact H | discriminate]. }
  cbn [pieces]. destruct (byte_eqb_spec b LF) as [->|Hb].
  - cbn [map]. now rewrite IH'.
  - destruct line as [|c line].
    + simpl. rewrite dropCR_id; [reflexivity | exact H].
    + destruct (pieces (c :: line)) as [|l ls] eqn:E;
        [now apply pieces_not_nil in E|].
      cbn [map] in *. injection IH' as Hl Hls. rewrite Hls. f_equal.
      assert (Hne : l <> []).
      { revert E. cbn [pieces]. destruct (Byte.eqb c LF); [intros [= <- _]; discriminate|].
        destruct (pieces line); intros [= <- _]; discriminate. }
      unfold Bufio.dropCR in *.
      rewrite (proj2 (len_pos_iff (b :: l))) by discriminate.
      rewrite (proj2 (len_pos_iff l) Hne) in Hl.
      rewrite lastb_cons by exact Hne. cbn [andb] in *.
      destruct (Byte.eqb (lastb l) CR); [|reflexivity].
      exfalso. apply (f_equal (@length byte)) in Hl.
      rewrite (last_split l Hne) in Hl at 2.
      rewrite length_app in Hl. simpl in Hl. lia.
Qed.

(** A token that starts with a byte is read like the rest of the token
    behind a line buffer that ends with that byte. *)
Lemma loop_shift b l rest serr linebuf ent s :
  loop cb ((b :: l) :: rest) serr linebuf ent s
  = loop cb (l :: rest) serr (linebuf ++ [b]) ent s.
Proof.
  rewrite !loop_cons, (body_joined cb (b :: l)), (body_joined cb l).
  now rewrite <- app_assoc.
Qed.

(** The raw lines of an escaped line are read like the line itself. *)
Lemma loop_pieces line rest serr : forall linebuf ent s,
  loop cb (pieces line ++ rest) serr linebuf ent s
  = loop cb ([] :: rest) serr (linebuf ++ line) ent s.
Proof.
  induction line as [|b line IH]; intros linebuf ent s.
  - now rewrite app_nil_r.
  - cbn [pieces]. destruct (byte_eqb_spec b LF) as [->|Hb].
    + cbn [app]. rewrite loop_cons, body_continuation by reflexivity.
      cbn [removelast app]. rewrite IH. now rewrite <- app_assoc.
    + pose proof (pieces_not_nil line) as Hne.
      specialize (IH (linebuf ++ [b]) ent s).
      destruct (pieces line) as [|l ls]; [congruence|].
      cbn [app] in *. rewrite loop_shift. etransitivity; [exact IH|]. now rewrite <- app_assoc.
Qed.

Lemma Forall_short_app (a b : list bytes) :
  Forall short (a ++ b) -> Forall short a /\ Forall short b.
Proof. apply Forall_app. Qed.

(** Reading the text of an escaped line, terminated by a newline. *)
Lemma loop_escaped_line line rest ent s :
  lastb line <> CR ->
  loop cb (map Bufio.dropCR (Bufio.rawLines (escape line ++ LF :: rest)))
    None [] ent s
  = match body cb [] line ent s with
    | Continue linebuf' ent' s' =>
        loop cb (map Bufio.dropCR (Bufio.rawLines rest)) None linebuf' ent' s'
    | Return err s' => (s', Some err)
    end.
Proof.
  intros H. rewrite rawLines_escape, map_app, dropCR_pieces by exact H.
  rewrite loop_pieces. reflexivity.
Qed.

End ReadBack.

(** ** The round trip *)

Section RoundTrip.
Import GoBytes TrimFacts ScanFacts.

Lemma test_len_pos (s : bytes) :
  (0 <? len s)%N = match s with [] => false | _ => true end.
Proof.
  destruct s as [|b s]; [reflexivity|]. now apply len_pos_iff.
Qed.

Lemma trimmed_notEndsSpace v : TrimSpace v = v -> notEndsSpace v.
Proof. intros H. now apply TrimSpace_fixed in H. Qed.

(** The line of a trimmed entry splits at its '=' into the key and the
    value with the spaces [Write] has added. *)
Lemma entryLine_split e :
  trimmed e ->
  exists pre post,
    entryLine e = pre ++ EQUALS :: post /\ ~ In EQUALS pre /\
    TrimSpace pre = Key e /\ TrimSpace post = Value e.
Proof.
  intros [Hk [He Hv]]. unfold entryLine. rewrite !test_len_pos.
  exists (match Key e with [] => [] | _ => Key e ++ [SP] end),
         (match Value e with [] => [] | _ => [SP] ++ Value e end).
  repeat split.
  - destruct (Key e); destruct (Value e); cbn [app]; rewrite <- ?app_assoc;
      reflexivity.
  - intros H. destruct (Key e) as [|b k] eqn:E; [exact H|].
    apply in_app_or in H. destruct H as [H | [H | []]]; [now apply He | discriminate H].
  - destruct (Key e) as [|b k] eqn:E; [reflexivity|]. now apply TrimSpace_key.
  - destruct (Value e) as [|b v] eqn:E; [reflexivity|]. now apply TrimSpace_value.
Qed.

Lemma entryLine_last e :
  entryLine e <> [] /\
  lastb (entryLine e) =
    match Value e with [] => EQUALS | _ => lastb (Value e) end.
Proof.
  unfold entryLine. rewrite !test_len_pos. split.
  - destruct (Key e); discriminate.
  - rewrite lastb_app by discriminate.
    destruct (Value e) as [|b v]; [reflexivity|].
    rewrite lastb_app by discriminate. now rewrite lastb_app by discriminate.
Qed.

Lemma entryLine_first e :
  first (entryLine e) = match Key e with [] => EQUALS | _ => first (Key e) end.
Proof.
  unfold entryLine. rewrite !test_len_pos. now destruct (Key e).
Qed.

Lemma entryLine_notEndsSpace e :
  TrimSpace (Value e) = Value e -> notEndsSpace (entryLine e).
Proof.
  intros Hv. unfold entryLine. rewrite !test_len_pos.
  destruct (Value e) as [|b v] eqn:E.
  - rewrite app_nil_r. now apply notEndsSpace_last.
  - rewrite app_assoc. cbn [app].
    apply notEndsSpace_after; [discriminate | reflexivity |].
    now apply trimmed_notEndsSpace.
Qed.

(** The line of a trimmed, rereadable entry is classified as an entry. *)
Lemma entryLine_classified e :
  trimmed e -> rereadable e ->
  complete (entryLine e) /\ first (entryLine e) <> HASH /\
  ~ bracketed (entryLine e) /\ lastb (entryLine e) <> CR.
Proof.
  intros [Hk [He Hv]] [Hh [Hb Hs]].
  destruct (entryLine_last e) as [Hne Hl].
  pose proof (entryLine_first e) as Hf.
  pose proof (entryLine_notEndsSpace e Hv) as Hn.
  repeat split.
  - now apply TrimSpace_notEndsSpace.
  - rewrite Hl. destruct (Value e); [discriminate | exact Hb].
  - rewrite Hf. destruct (Key e); [discriminate | exact Hh].
  - intros [H1 H2]. rewrite Hf in H1. rewrite Hl in H2. apply Hs.
    destruct (Key e); [discriminate H1|]. destruct (Value e); [discriminate H2|].
    now split.
  - now apply notEndsSpace_lastb.
Qed.

Lemma body_entryLine {St : Type} (cb : Entry -> St -> St * option error)
    e ent s :
  trimmed e -> rereadable e ->
  body cb [] (entryLine e) ent s =
    let e' := mkEntry (Section_ ent) (Key e) (Value e) in
    match cb e' s with
    | (s', Some err) => Return err s'
    | (s', None) => Continue [] e' s'
    end.
Proof.
  intros Ht Hr.
  destruct (entryLine_split e Ht) as [pre [post [Hsplit [Hpre [Hkey Hval]]]]].
  destruct (entryLine_classified e Ht Hr) as [Hc [Hh [Hb _]]].
  rewrite <- (app_nil_r (entryLine e)) in Hsplit, Hc, Hh, Hb.
  rewrite (body_entry cb [] (entryLine e) ent s pre post Hsplit Hpre Hc Hh Hb).
  now rewrite Hkey, Hval.
Qed.

Lemma body_headerLine {St : Type} (cb : Entry -> St -> St * option error)
    sec ent s :
  body cb [] (headerLine sec) ent s
  = Continue [] (mkEntry sec (Key ent) (Value ent)) s.
Proof.
  apply body_section. unfold headerLine. now rewrite app_nil_r.
Qed.

(** Reading what [Write] has written, from the state the two are in
    together: the section [Read] holds is the one [Write] holds. *)
Lemma loop_render es : forall sec wr ent got,
  Forall trimmed es -> Forall rereadable es ->
  Section_ ent = sec ->
  loop collect (map Bufio.dropCR (Bufio.rawLines (render sec wr es)))
    None [] ent got
  = (got ++ es, None).
Proof.
  induction es as [|e es IH]; intros sec wr ent got Ht Hr Hsec.
  - simpl. now rewrite app_nil_r.
  - inversion Ht as [|? ? Hte Htes]; inversion Hr as [|? ? Hre Hres]; subst.
    assert (Hentry : forall ent0,
      Section_ ent0 = Section_ e ->
      loop collect
        (map Bufio.dropCR
           (Bufio.rawLines (escape (entryLine e) ++ [LF]
                            ++ render (Section_ e) true es)))
        None [] ent0 got
      = (got ++ e :: es, None)).
    { intros ent0 Hs. cbn [app].
      rewrite loop_escaped_line
        by (now destruct (entryLine_classified e Hte Hre) as [_ [_ [_ H]]]).
      rewrite body_entryLine by assumption. cbv zeta. unfold collect at 1.
      rewrite IH by (try assumption; reflexivity).
      rewrite Hs. destruct e. simpl. now rewrite <- app_assoc. }
    cbn [render].
    destruct (bytes_eq_dec (Section_ e) (Section_ ent)) as [E|E].
    + cbn [app]. now apply (Hentry ent).
    + assert (Hhead : forall ent0,
        loop collect
          (map Bufio.dropCR
             (Bufio.rawLines
                (escape (headerLine (Section_ e)) ++ [LF]
                 ++ escape (entryLine e) ++ [LF]
                 ++ render (Section_ e) true es)))
          None [] ent0 got
        = (got ++ e :: es, None)).
      { intros ent0. cbn [app]. rewrite loop_escaped_line.
        - rewrite body_headerLine. now apply Hentry.
        - unfold headerLine. rewrite app_assoc, lastb_app_single. discriminate. }
      destruct wr.
      * rewrite <- !app_assoc.
        change ([LF] ++ escape (headerLine (Section_ e)) ++ [LF]
                ++ escape (entryLine e) ++ [LF] ++ render (Section_ e) true es)
          with (escape [] ++ LF :: (escape (headerLine (Section_ e)) ++ [LF]
                ++ escape (entryLine e) ++ [LF] ++ render (Section_ e) true es)).
        rewrite loop_escaped_line by discriminate.
        rewrite body_empty. apply Hhead.
      * rewrite <- !app_assoc. cbn [app]. apply (Hhead ent).
Qed.

End RoundTrip.

(** ** What [Read] delivers, written and read again *)

Section Delivered.
Import GoBytes TrimFacts IndexFacts ScanFacts.

(** Every entry the loop body hands to the callback is trimmed. *)
Lemma body_collect_trimmed tok linebuf ent got :
  Forall trimmed got ->
  match body collect tok linebuf ent got with
  | Continue _ _ got' => Forall trimmed got'
  | Return _ got' => Forall trimmed got'
  end.
Proof.
  intros H. unfold body. cbv zeta.
  destruct ((len (linebuf ++ tok) =? 0)%N
            || (len (TrimSpace (linebuf ++ tok)) =? 0)%N); [exact H|].
  destruct (Byte.eqb (lastb (linebuf ++ tok)) BACKSLASH); [exact H|].
  destruct (Byte.eqb (first (linebuf ++ tok)) HASH); [exact H|].
  destruct (Byte.eqb (first (linebuf ++ tok)) LBRACKET
            && Byte.eqb (lastb (linebuf ++ tok)) RBRACKET); [exact H|].
  destruct (IndexByte (linebuf ++ tok) EQUALS) as [idx|] eqn:E; [|exact H].
  unfold collect. apply Forall_app. split; [exact H|]. constructor; [|constructor].
  destruct (IndexByte_Some _ _ _ E) as [post [_ [Hpre _]]].
  unfold trimmed. cbn [Key Value]. repeat split.
  - apply TrimSpace_idempotent.
  - intros Hin. apply Hpre. now apply TrimSpace_incl.
  - apply TrimSpace_idempotent.
Qed.

Lemma loop_collect_trimmed toks serr : forall linebuf ent got,
  Forall trimmed got ->
  Forall trimmed (fst (loop collect toks serr linebuf ent got)).
Proof.
  induction toks as [|tok toks IH]; intros linebuf ent got H; [exact H|].
  cbn [loop]. pose proof (body_collect_trimmed tok linebuf ent got H) as Hb.
  destruct (body collect tok linebuf ent got); [now apply IH | exact Hb].
Qed.

Lemma ReadEntries_trimmed data : Forall trimmed (fst (ReadEntries data)).
Proof.
  unfold ReadEntries, Read. destruct (Bufio.Scanner data) as [toks serr].
  apply loop_collect_trimmed. constructor.
Qed.

(** Entries that are trimmed and rereadable are read back from what
    [Write] writes for them, when no line written is too long for the
    scanner. *)
Lemma roundtrip_trimmed es :
  Forall trimmed es -> Forall rereadable es ->
  Forall short (Bufio.rawLines (WriteString es)) ->
  ReadEntries (WriteString es) = (es, None).
Proof.
  intros Ht Hr Hs. unfold ReadEntries, Read, Bufio.Scanner.
  rewrite scan_short by exact Hs. rewrite WriteString_render.
  now rewrite loop_render.
Qed.

(** C1, amended. Entries that [Read] has delivered are read back from what
    [Write] writes for them, in the same order, provided that no key starts
    with '#', no value ends with a backslash, no entry has a key that
    starts with '[' together with a value that ends with ']', and no line
    written is too long for the scanner. *)
Theorem C1_roundtrip data es res :
  ReadEntries data = (es, res) ->
  Forall rereadable es ->
  Forall short (Bufio.rawLines (WriteString es)) ->
  ReadEntries (WriteString es) = (es, None).
Proof.
  intros Hread Hr Hs. apply roundtrip_trimmed; [|exact Hr | exact Hs].
  pose proof (ReadEntries_trimmed data) as Ht. now rewrite Hread in Ht.
Qed.

End Delivered.

(** C1 as stated fails: [Read] delivers entries that [Write] writes as a
    line [Read] does not take for that entry again.  A value that ends with
    a backslash is written as a line that continues; a key that starts with
    '#' is written as a comment; a key that starts with '[' before a value
    that ends with ']' is written as a section header. *)
Lemma C1_roundtrip_counterexample :
  (ReadEntries (bs "a=b\ " ++ [LF]) = ([mkEntry [] (bs "a") (bs "b\")], None) /\
   ReadEntries (WriteString [mkEntry [] (bs "a") (bs "b\")]) = ([], None)) /\
  (ReadEntries (bs " #a=b" ++ [LF]) = ([mkEntry [] (bs "#a") (bs "b")], None) /\
   ReadEntries (WriteString [mkEntry [] (bs "#a") (bs "b")]) = ([], None)) /\
  (ReadEntries (bs " [a=b]" ++ [LF]) = ([mkEntry [] (bs "[a") (bs "b]")], None) /\
   ReadEntries (WriteString [mkEntry [] (bs "[a") (bs "b]")]) = ([], None)).
Proof. vm_compute. repeat split. Qed.

(** ** The scanner's token limit *)

Section TokenLimit.
Import GoBytes TrimFacts ScanFacts.

Lemma len_app (a b : bytes) : len (a ++ b) = (len a + len b)%N.
Proof. unfold len. rewrite length_app. lia. Qed.

Lemma pieces_single line : ~ In LF line -> pieces line = [line].
Proof.
  induction line as [|b line IH]; intros H; [reflexivity|].
  cbn [pieces]. rewrite byte_eqb_neq by (intros ->; apply H; now left).
  rewrite IH; [reflexivity|]. intros Hin. apply H. now right.
Qed.

(** An entry whose line "k=v" the scanner still holds is written as
    "k = v", two bytes longer: for a key of 65533 bytes the written line
    is one the scanner does not hold, and [Read] returns
    [bufio.ErrTooLong]. *)
Lemma roundtrip_token_limit_for (k : bytes) :
  len k = 65533%N -> (forall b, In b k -> b = x6b) ->
  ReadEntries (k ++ bs "=v" ++ [LF]) = ([mkEntry [] k (bs "v")], None) /\
  ReadEntries (WriteString [mkEntry [] k (bs "v")]) = ([], Some ErrTooLong).
Proof.
  intros Hlen Hk.
  assert (Hne : k <> []) by (intros ->; discriminate Hlen).
  assert (Hnot : forall b, b <> x6b -> ~ In b k).
  { intros b Hb Hin. now apply Hb, Hk. }
  assert (Hfirst : first k = x6b).
  { destruct k as [|b k']; [congruence|]. apply Hk. now left. }
  assert (Hlast : lastb k = x6b).
  { apply Hk. rewrite (last_split k Hne) at 2. apply in_or_app. right. now left. }
  assert (Htrim : TrimSpace k = k).
  { apply TrimSpace_fixed. split.
    - destruct k as [|b k']; [congruence|]. simpl in Hfirst. now subst b.
    - rewrite (last_split k Hne), Hlast. now apply notEndsSpace_last. }
  split.
  - unfold ReadEntries, Read, Bufio.Scanner.
    change (k ++ bs "=v" ++ [LF]) with (k ++ bs "=v" ++ LF :: []).
    rewrite app_assoc, rawLines_terminated.
    + cbn [Bufio.rawLines Bufio.scan].
      replace (Bufio.MaxScanTokenSize <=? len (k ++ bs "=v"))%N with false
        by (rewrite len_app, Hlen; reflexivity).
      rewrite dropCR_id by (rewrite lastb_app by discriminate; discriminate).
      rewrite loop_cons.
      rewrite (body_entry collect (k ++ bs "=v") [] zeroEntry [] k (bs "v")).
      * cbv zeta. rewrite Htrim. reflexivity.
      * reflexivity.
      * now apply Hnot.
      * split.
        -- apply TrimSpace_notEndsSpace; [now destruct k|].
           cbn [app]. change (k ++ bs "=v") with (k ++ [EQUALS] ++ [x76]).
           rewrite app_assoc. now apply notEndsSpace_last.
        -- cbn [app]. rewrite lastb_app by discriminate. discriminate.
      * cbn [app]. rewrite first_app by exact Hne. now rewrite Hfirst.
      * intros [H _]. cbn [app] in H. rewrite first_app in H by exact Hne.
        rewrite Hfirst in H. discriminate H.
    + intros Hin. apply in_app_or in Hin. destruct Hin as [Hin|Hin].
      * now apply (Hnot LF).
      * simpl in Hin. intuition discriminate.
  - unfold ReadEntries, Read, Bufio.Scanner.
    rewrite WriteString_render. cbn [render Section_].
    destruct (bytes_eq_dec [] []) as [_|E]; [|congruence].
    cbn [app].
    change (escape (entryLine (mkEntry [] k (bs "v"))) ++ [LF])
      with (escape (entryLine (mkEntry [] k (bs "v"))) ++ LF :: []).
    rewrite rawLines_escape, pieces_single.
    + cbn [app Bufio.rawLines Bufio.scan].
      replace (Bufio.MaxScanTokenSize <=? len (entryLine (mkEntry [] k (bs "v"))))%N
        with true; [reflexivity|].
      unfold entryLine. cbn [Key Value]. rewrite !test_len_pos.
      destruct k as [|b k']; [congruence|].
      rewrite !len_app, Hlen. reflexivity.
    + unfold entryLine. cbn [Key Value]. rewrite !test_len_pos.
      destruct k as [|b k']; [congruence|].
      intros Hin. apply in_app_or in Hin. destruct Hin as [Hin|Hin].
      * apply in_app_or in Hin. destruct Hin as [Hin|Hin].
        -- now apply (Hnot LF).
        -- simpl in Hin. intuition discriminate.
      * simpl in Hin. intuition discriminate.
Qed.

(** The token limit at work: the entry with the key [longKey] is delivered
    by [Read] and is not read back. *)
Lemma roundtrip_token_limit :
  ReadEntries (longKey ++ bs "=v" ++ [LF]) = ([mkEntry [] longKey (bs "v")], None) /\
  ReadEntries (WriteString [mkEntry [] longKey (bs "v")]) = ([], Some ErrTooLong).
Proof.
  apply roundtrip_token_limit_for.
  - unfold len, longKey. cbn [length]. rewrite repeat_length. lia.
  - intros b [H|H]; [now symmetry|]. now apply repeat_spec in H.
Qed.

End TokenLimit.

(** ** Entries that are not read back *)

Section NotRereadable.
Import GoBytes TrimFacts ScanFacts.

(** The line of a trimmed entry that is not rereadable is taken for a
    continuation, a comment or a section header: the callback is not
    called. *)
Lemma body_not_rereadable {St : Type} (cb : Entry -> St -> St * option error)
    e ent s :
  trimmed e -> ~ rereadable e ->
  exists linebuf' ent', body cb [] (entryLine e) ent s = Continue linebuf' ent' s.
Proof.
  intros [Hk [He Hv]] Hn.
  destruct (entryLine_last e) as [Hne Hl].
  pose proof (entryLine_first e) as Hf.
  unfold body. cbv zeta. rewrite app_nil_r.
  rewrite nonblank_test
    by (apply TrimSpace_notEndsSpace;
        [exact Hne | now apply entryLine_notEndsSpace]).
  destruct (byte_eqb_spec (lastb (entryLine e)) BACKSLASH) as [E1|E1];
    [now eexists _, _|].
  destruct (byte_eqb_spec (first (entryLine e)) HASH) as [E2|E2];
    [now eexists _, _|].
  destruct (byte_eqb_spec (first (entryLine e)) LBRACKET) as [E3|E3];
    destruct (byte_eqb_spec (lastb (entryLine e)) RBRACKET) as [E4|E4];
    cbn [andb]; try (now eexists _, _); exfalso; apply Hn;
    rewrite Hf in E2, E3; rewrite Hl in E1, E4; unfold rereadable;
    (split; [|split]);
    try (destruct (Key e); [discriminate | assumption]);
    try (destruct (Value e); [discriminate | assumption]);
    intros [H1 H2]; destruct (Key e); try discriminate H1;
    destruct (Value e); try discriminate H2; congruence.
Qed.

(** The conditions of the round trip are needed: a trimmed entry that is
    not rereadable is written as text from which [Read] delivers no
    entry. *)
Lemma not_rereadable_lost e :
  trimmed e -> ~ rereadable e ->
  Forall short (Bufio.rawLines (WriteString [e])) ->
  ReadEntries (WriteString [e]) = ([], None).
Proof.
  intros Ht Hn Hs. unfold ReadEntries, Read, Bufio.Scanner.
  rewrite scan_short by exact Hs. rewrite WriteString_render.
  assert (Hcr : lastb (entryLine e) <> CR).
  { destruct Ht as [_ [_ Hv]]. destruct (entryLine_last e) as [Hne _].
    apply notEndsSpace_lastb; [exact Hne | now apply entryLine_notEndsSpace]. }
  assert (Hline : forall ent,
    loop collect
      (map Bufio.dropCR (Bufio.rawLines (escape (entryLine e) ++ LF :: [])))
      None [] ent []
    = ([], None)).
  { intros ent. rewrite loop_escaped_line by exact Hcr.
    destruct (body_not_rereadable collect e ent [] Ht Hn) as [b [ent' ->]].
    reflexivity. }
  cbn [render]. rewrite app_nil_r.
  destruct (bytes_eq_dec (Section_ e) []) as [E|E]; cbn [app].
  - apply Hline.
  - rewrite <- app_assoc. cbn [app]. rewrite loop_escaped_line.
    + rewrite body_headerLine. apply Hline.
    + unfold headerLine. rewrite app_assoc, lastb_app_single. discriminate.
Qed.

End NotRereadable.

(** * The properties on concrete streams *)

(** C2 fails on the code: a line of white space is not dropped, its bytes
    stay in the line buffer in front of the next line.  Behind a line that
    holds one space the comment "#c" is an invalid line; taken alone it is
    skipped. *)
Lemma C2_blank_line_residue :
  ReadEntries (bs " " ++ [LF] ++ bs "#c" ++ [LF])
    = ([], Some (ErrInvalidLine (bs " #c"))) /\
  ReadEntries (bs "#c" ++ [LF]) = ([], None).
Proof. vm_compute. split; reflexivity. Qed.

Ltac closed_facts :=
  repeat match goal with
  | |- _ /\ _ => split
  | |- Forall _ _ => constructor
  | |- complete _ => unfold complete
  | |- bracketed _ => unfold bracketed
  | |- rereadable _ => unfold rereadable
  | |- short _ => unfold short
  | |- _ = _ => vm_compute; reflexivity
  | |- _ <> _ => vm_compute; discriminate
  | |- ~ bracketed _ => vm_compute; intros [? ?]; discriminate
  | |- ~ (_ /\ _) => vm_compute; intros [? ?]; discriminate
  | |- ~ In _ _ => vm_compute; intuition discriminate
  | |- (_ < _)%N => vm_compute; reflexivity
  | |- _ \/ _ => first [left; vm_compute; reflexivity | right; vm_compute; reflexivity]
  end.

(** The regression stream "[multi line\<newline>table]" of the tests is read
    back from what [Write] writes for its entry. *)
Lemma C1_roundtrip_witness :
  ReadEntries
    (WriteString [mkEntry (bs "multi line" ++ [LF] ++ bs "table") (bs "foo") (bs "bar")])
  = ([mkEntry (bs "multi line" ++ [LF] ++ bs "table") (bs "foo") (bs "bar")], None).
Proof.
  apply (C1_roundtrip
           (bs "[multi line\" ++ [LF] ++ bs "table]" ++ [LF] ++ bs "foo = bar" ++ [LF])
           [mkEntry (bs "multi line" ++ [LF] ++ bs "table") (bs "foo") (bs "bar")]
           None); closed_facts.
Defined.

(** "a=b=c" yields the key "a" and the value "b=c". *)
Lemma C3_key_value_entry_witness :
  ReadEntries (bs "a=b=c" ++ [LF]) = ([mkEntry [] (bs "a") (bs "b=c")], None).
Proof.
  refine (proj1 (proj2 (C3_key_value_entry collect (bs "a=b=c") [] None []
                          zeroEntry [] (bs "a") (bs "b=c") _ _ _ _ _)));
    closed_facts.
Defined.

(** "=" alone yields an entry with an empty key and an empty value. *)
Example C3_empty_key_and_value :
  ReadEntries (bs "=" ++ [LF]) = ([mkEntry [] [] []], None).
Proof. vm_compute. reflexivity. Qed.

(** A value continued on a second raw line holds a newline where the
    backslash was. *)
Lemma C4_continuation_join_witness :
  ReadEntries (bs "foo = bar\" ++ [LF] ++ bs "multi line" ++ [LF])
  = ([mkEntry [] (bs "foo") (bs "bar" ++ [LF] ++ bs "multi line")], None).
Proof.
  refine (eq_trans
            (proj2 (C4_continuation_join collect [bs "foo = bar\"] (bs "multi line")
                      [] None [] zeroEntry [] _)) _); closed_facts.
Defined.

(** "[a=b]" is a section header. *)
Lemma C5_section_header_witness :
  ReadEntries (bs "[a=b]" ++ [LF] ++ bs "k=v" ++ [LF])
  = ([mkEntry (bs "a=b") (bs "k") (bs "v")], None).
Proof.
  destruct (C5_section_header collect (bs "[a=b]") [bs "k=v"] None [] zeroEntry [])
    as [mid [Hmid [_ Hloop]]].
  - closed_facts.
  - assert (E : mid = bs "a=b").
    { injection Hmid as Hm. symmetry.
      now apply (app_inj_tail (bs "a=b") mid RBRACKET RBRACKET). }
    subst mid. exact Hloop.
Defined.

(** A section header continued on a second raw line names a section with a
    newline in it. *)
Example C5_section_with_newline :
  ReadEntries (bs "[multi line\" ++ [LF] ++ bs "table]" ++ [LF] ++ bs "foo = bar" ++ [LF])
  = ([mkEntry (bs "multi line" ++ [LF] ++ bs "table") (bs "foo") (bs "bar")], None).
Proof. vm_compute. reflexivity. Qed.

(** "not valid at all" ends the read; the entry in front of it has been
    delivered, the one behind it is not. *)
Lemma C6_malformed_line_witness :
  ReadEntries (bs "a=b" ++ [LF] ++ bs "not valid at all" ++ [LF] ++ bs "c=d" ++ [LF])
  = ([mkEntry [] (bs "a") (bs "b")], Some (ErrInvalidLine (bs "not valid at all"))).
Proof.
  refine (proj2 (C6_malformed_line collect _ [] [bs "a=b"] (bs "not valid at all")
                   [bs "c=d"] None [] (mkEntry [] (bs "a") (bs "b"))
                   [mkEntry [] (bs "a") (bs "b")] _ _ _ _ _ _)); closed_facts.
Defined.

(** A callback that fails on the key "c" gets the entries up to that one. *)
Lemma C7_callback_failure_witness :
  Read (stopAt (bs "c")) (bs "a=b" ++ [LF] ++ bs "c=d" ++ [LF] ++ bs "e=f" ++ [LF]) []
  = ([mkEntry [] (bs "a") (bs "b"); mkEntry [] (bs "c") (bs "d")],
     Some (ErrOther "stop")).
Proof.
  refine (proj1 (C7_callback_failure (stopAt (bs "c")) _ [] _
                   [(mkEntry [] (bs "a") (bs "b"), None);
                    (mkEntry [] (bs "c") (bs "d"), Some (ErrOther "stop"))]
                   _ _)); closed_facts.
Defined.

(** A sink that fails on its third call holds the two chunks written
    before, and [Write] returns its error. *)
Lemma C8_write_failure_witness :
  Write fullAfter ([], 2)
    [mkEntry [] (bs "a") (bs "b"); mkEntry [] (bs "c") (bs "d")]
  = ((bs "a =", 0), Some (ErrOther "full")).
Proof.
  refine (proj1 (C8_write_failure fullAfter ([], 2) _ _
                   [(bs "a ", None); (bs "=", None);
                    (bs " b", Some (ErrOther "full"))]
                   _ _)); closed_facts.
Defined.

(** A stream that ends in a line with a backslash at its end. *)
Lemma C9_dangling_continuation_witness :
  ReadEntries (bs "a=b" ++ [LF] ++ bs "c=d\") = ([mkEntry [] (bs "a") (bs "b")], None).
Proof.
  refine (eq_trans
            (proj1 (C9_dangling_continuation collect (bs "a=b" ++ [LF]) (bs "c=d\") []
                      _ _ _ _)) _); closed_facts.
Defined.

(** The stream that is "=" alone, without a newline. *)
Lemma C10_unterminated_final_line_witness :
  ReadEntries (bs "=") = ([mkEntry [] [] []], None).
Proof.
  refine (eq_trans (C10_unterminated_final_line collect (bs "=") [] _ _) _);
    closed_facts.
Defined.

(** * The tests of ini_test.go *)

(** [TestRead]: every stream of the table is read without an error and
    yields the entries expected. *)
Example TestRead :
  Forall (fun t => ReadEntries (fst t) = (snd t, None)) tests.
Proof. repeat constructor. Qed.

(** [TestWrite_RoundTrip]: the entries of every row are read back from what
    [Write] writes for them. *)
Example TestWrite_RoundTrip :
  Forall (fun t => Write Buffer_Write [] (snd t) = (WriteString (snd t), None)
                   /\ ReadEntries (WriteString (snd t)) = (snd t, None)) tests.
Proof. repeat constructor. Qed.

(** What [Write] writes for the last row of the table. *)
Example TestWrite_text :
  WriteString [mkEntry (bs "table1") (bs "foo") (bs "bar");
               mkEntry [] (bs "foo") (bs "reset table")]
  = bs "[table1]" ++ [LF] ++ bs "foo = bar" ++ [LF; LF]
    ++ bs "[]" ++ [LF] ++ bs "foo = reset table" ++ [LF].
Proof. reflexivity. Qed.

(** White space in the sense of [bytes.TrimSpace]: a no-break space (C2 A0)
    and a line separator (E2 80 A8) are trimmed, a lone byte A0 is not. *)
Example TrimSpace_unicode :
  GoBytes.TrimSpace ([xc2; xa0; SP] ++ bs "a b" ++ [TAB; xe2; x80; xa8; CR])
    = bs "a b" /\
  GoBytes.TrimSpace ([xa0] ++ bs "a" ++ [xe2; x80]) = [xa0] ++ bs "a" ++ [xe2; x80].
Proof. split; reflexivity. Qed.

(** * Further properties of the code *)

(** * Further properties of [Read] *)

(** ** Comments, blank lines and empty lines *)

Section SkippedLines.
Import GoBytes TrimFacts ScanFacts.
Context {St : Type}.
Variable cb : Entry -> St -> St * option error.

(** A slice that is exactly one white-space rune, read backwards, starts
    with it. *)
Lemma spaceWidthRev_exact r :
  r <> [] -> spaceWidthRev r = length r -> spaceWidth (rev r) <> 0.
Proof.
  intros Hr H.
  destruct r as [|a [|b [|c [|d t]]]]; [congruence| | | |].
  - destruct a; simpl in *; congruence.
  - destruct a; simpl in *; try congruence; destruct b; simpl in *; congruence.
  - destruct a; simpl in *; try congruence; destruct b; simpl in *;
      try congruence; destruct c; simpl in *; congruence.
  - pose proof (spaceWidthRev_app [a; b; c] (d :: t)) as Happ.
    assert (Hle : spaceWidthRev [a; b; c] <= 3)
      by apply (spaceWidthRev_le [a; b; c]).
    destruct (Nat.eq_dec (spaceWidthRev [a; b; c]) 0) as [E|E].
    + exfalso. revert H E. clear.
      destruct a; simpl; try congruence; destruct b; simpl; try congruence;
        destruct c; simpl; congruence.
    + specialize (Happ E). simpl app in Happ. rewrite Happ in H.
      simpl length in H. lia.
Qed.

Lemma dropSpacesRev_nil fuel : forall r,
  dropSpaces spaceWidthRev fuel r = [] -> r = [] \/ spaceWidth (rev r) <> 0.
Proof.
  induction fuel as [|fuel IH]; intros r H.
  - simpl in H. subst r. now left.
  - destruct (Nat.eq_dec (spaceWidthRev r) 0) as [E|E].
    + rewrite dropSpaces_id in H by exact E. subst r. now left.
    + rewrite dropSpaces_step in H by exact E. right.
      assert (Hr : r <> []) by (intros ->; now apply E).
      destruct (IH _ H) as [Hn | Hn].
      * apply spaceWidthRev_exact; [exact Hr|].
        pose proof (spaceWidthRev_le r).
        assert (length (skipn (spaceWidthRev r) r) = 0) by now rewrite Hn.
        rewrite length_skipn in *. lia.
      * rewrite <- (firstn_skipn (spaceWidthRev r) r), rev_app_distr.
        now rewrite spaceWidth_app.
Qed.

Lemma TrimRight_nil s : TrimRight s = [] -> s = [] \/ spaceWidth s <> 0.
Proof.
  unfold TrimRight. intros H.
  apply (f_equal (@rev byte)) in H. rewrite rev_involutive in H. simpl in H.
  destruct (dropSpacesRev_nil _ _ H) as [E|E].
  - left. apply (f_equal (@rev byte)) in E. now rewrite rev_involutive in E.
  - right. now rewrite rev_involutive in E.
Qed.

(** A slice that does not start with white space is not blank. *)
Lemma TrimSpace_first s : s <> [] -> spaceWidth s = 0 -> TrimSpace s <> [].
Proof.
  intros Hs H. unfold TrimSpace. rewrite TrimLeft_id by exact H.
  intros E. destruct (TrimRight_nil s E); tauto.
Qed.

Lemma first_HASH_nonblank s : first s = HASH -> TrimSpace s <> [].
Proof.
  intros H. destruct s as [|b s]; [discriminate H|]. simpl in H. subst b.
  apply TrimSpace_first; [discriminate | reflexivity].
Qed.

(** X1. A line buffer that starts with '#' and does not end with a
    backslash is a comment: the callback is not called, the section stays,
    and the loop goes on with an empty line buffer.  The buffer may hold
    earlier raw lines of a continued comment. *)
Theorem comment_skipped tok toks serr linebuf ent s :
  first (linebuf ++ tok) = HASH -> lastb (linebuf ++ tok) <> BACKSLASH ->
  body cb tok linebuf ent s = Continue [] ent s /\
  loop cb (tok :: toks) serr linebuf ent s = loop cb toks serr [] ent s.
Proof.
  intros Hf Hl.
  assert (Hb : body cb tok linebuf ent s = Continue [] ent s).
  { apply body_comment; [|exact Hf]. split; [|exact Hl].
    now apply first_HASH_nonblank. }
  split; [exact Hb|]. now rewrite loop_cons, Hb.
Qed.

(** X2. A raw line that leaves the line buffer blank is not dropped: the
    buffer keeps its bytes, and the loop goes on as if they stood in front
    of the next raw line. *)
Theorem blank_line_fused ws tok toks serr linebuf ent s :
  TrimSpace (linebuf ++ ws) = [] ->
  body cb ws linebuf ent s = Continue (linebuf ++ ws) ent s /\
  loop cb (ws :: tok :: toks) serr linebuf ent s
  = loop cb ((ws ++ tok) :: toks) serr linebuf ent s.
Proof.
  intros H.
  assert (Hb : body cb ws linebuf ent s = Continue (linebuf ++ ws) ent s)
    by now apply body_blank.
  split; [exact Hb|].
  rewrite loop_cons, Hb, !loop_cons.
  rewrite (body_joined cb tok), (body_joined cb (ws ++ tok)).
  now rewrite app_assoc.
Qed.

(** X3. An empty raw line that meets a blank line buffer changes nothing:
    the loop goes on in the state it was in. *)
Theorem empty_line_ignored toks serr linebuf ent s :
  TrimSpace linebuf = [] ->
  body cb [] linebuf ent s = Continue linebuf ent s /\
  loop cb ([] :: toks) serr linebuf ent s = loop cb toks serr linebuf ent s.
Proof.
  intros Hb.
  assert (H : body cb [] linebuf ent s = Continue linebuf ent s).
  { rewrite body_blank by (now rewrite app_nil_r). now rewrite app_nil_r. }
  split; [exact H|]. now rewrite loop_cons, H.
Qed.

End SkippedLines.

(** A comment continued on a second raw line. *)
Lemma comment_skipped_witness :
  ReadEntries (bs "# multi line \" ++ [LF] ++ bs "comment" ++ [LF]
               ++ bs "foo = bar" ++ [LF])
  = ([mkEntry [] (bs "foo") (bs "bar")], None).
Proof.
  refine (eq_trans
            (proj2 (comment_skipped collect (bs "comment") [bs "foo = bar"] None
                      (bs "# multi line " ++ [LF]) zeroEntry [] _ _)) _);
    closed_facts.
Defined.

(** A section header behind a line that holds one space is an invalid
    line. *)
Lemma blank_line_fused_witness :
  ReadEntries (bs " " ++ [LF] ++ bs "[s]" ++ [LF] ++ bs "k=v" ++ [LF])
  = ([], Some (ErrInvalidLine (bs " [s]"))).
Proof.
  refine (eq_trans
            (proj2 (blank_line_fused collect (bs " ") (bs "[s]") [bs "k=v"] None
                      [] zeroEntry [] _)) _); closed_facts.
Defined.

(** Empty lines in front of an entry and between two entries. *)
Lemma empty_line_ignored_witness :
  ReadEntries ([LF] ++ bs "a=b" ++ [LF; LF] ++ bs "c=d" ++ [LF])
  = ([mkEntry [] (bs "a") (bs "b"); mkEntry [] (bs "c") (bs "d")], None).
Proof.
  refine (eq_trans
            (proj2 (empty_line_ignored collect [bs "a=b"; []; bs "c=d"] None
                      [] zeroEntry [] _)) _); closed_facts.
Defined.

(** ** Line ends with a carriage return *)

Section CarriageReturn.
Import GoBytes TrimFacts ScanFacts.

(** A line of the stream with carriage returns is the line of the stream
    without them, with a carriage return behind it when a newline
    follows. *)
Lemma rawLines_toCRLF data :
  Forall2 (fun l' l => l' = l \/ l' = l ++ [CR])
    (Bufio.rawLines (toCRLF data)) (Bufio.rawLines data).
Proof.
  induction data as [|b rest IH]; [constructor|].
  cbn [toCRLF Bufio.rawLines]. destruct (byte_eqb_spec b LF) as [->|Hb].
  - cbn [Bufio.rawLines]. change (Byte.eqb CR LF) with false. cbn iota.
    rewrite byte_eqb_refl. constructor; [now right | exact IH].
  - cbn [Bufio.rawLines]. rewrite (byte_eqb_neq _ _ Hb).
    inversion IH as [|l' l ls' ls Hl Hls E1 E2]; [constructor; [now left | constructor]|].
    constructor; [|exact Hls].
    destruct Hl as [-> | ->]; [now left | now right].
Qed.

Lemma len_snoc (l : bytes) (b : byte) : len (l ++ [b]) = (len l + 1)%N.
Proof. unfold len. rewrite length_app. simpl. lia. Qed.

Lemma dropCR_snoc l : Bufio.dropCR (l ++ [CR]) = l.
Proof.
  unfold Bufio.dropCR. rewrite lastb_app_single, byte_eqb_refl, removelast_last.
  now rewrite (proj2 (len_pos_iff (l ++ [CR]))) by (now destruct l).
Qed.

(** X4. Line ends "\r\n" are read like line ends "\n": when no line of a
    stream ends with a carriage return of its own, and every line leaves
    room for one more byte in the scanner's buffer, [Read] does the same on
    the stream with a carriage return in front of every newline. *)
Theorem Read_CRLF {St : Type} (cb : Entry -> St -> St * option error) data s :
  Forall (fun l => lastb l <> CR /\ (len l + 1 < Bufio.MaxScanTokenSize)%N)
    (Bufio.rawLines data) ->
  Read cb (toCRLF data) s = Read cb data s.
Proof.
  intros H. unfold Read, Bufio.Scanner.
  pose proof (rawLines_toCRLF data) as HR.
  assert (Hs : Forall short (Bufio.rawLines data)).
  { eapply Forall_impl; [|exact H]. intros l [_ Hl]. unfold short. lia. }
  assert (Hboth : Forall short (Bufio.rawLines (toCRLF data)) /\
                  map Bufio.dropCR (Bufio.rawLines (toCRLF data))
                  = map Bufio.dropCR (Bufio.rawLines data)).
  { revert H. clear Hs. induction HR as [|l' l ls' ls Hl _ IH]; intros H.
    - split; [constructor | reflexivity].
    - inversion H as [|? ? [Hcr Hlen] Hrest]; subst.
      destruct (IH Hrest) as [IH1 IH2]. split.
      + constructor; [|exact IH1]. unfold short.
        destruct Hl as [-> | ->]; [lia | rewrite len_snoc; lia].
      + cbn [map]. rewrite IH2. f_equal.
        destruct Hl as [-> | ->]; [reflexivity|].
        now rewrite dropCR_snoc, dropCR_id. }
  destruct Hboth as [Hs' Hmap].
  now rewrite (scan_short _ Hs'), (scan_short _ Hs), Hmap.
Qed.

End CarriageReturn.

(** The table stream with two sections, with "\r\n" line ends. *)
Lemma Read_CRLF_witness :
  ReadEntries (bs "[table1]" ++ [CR; LF] ++ bs "foo = bar" ++ [CR; LF; CR; LF]
               ++ bs "[]" ++ [CR; LF] ++ bs "foo = reset table" ++ [CR; LF])
  = ([mkEntry (bs "table1") (bs "foo") (bs "bar");
      mkEntry [] (bs "foo") (bs "reset table")], None).
Proof.
  refine (eq_trans
            (Read_CRLF collect
               (bs "[table1]" ++ [LF] ++ bs "foo = bar" ++ [LF; LF]
                ++ bs "[]" ++ [LF] ++ bs "foo = reset table" ++ [LF]) [] _) _);
    closed_facts.
Defined.

(** ** What [Read] hands to the callback, and what it returns *)

Section Delivery.
Import GoBytes TrimFacts IndexFacts ScanFacts.
Context {St : Type}.
Variable cb : Entry -> St -> St * option error.

(** One pass through the loop body under a traced callback, with what is
    known of the entry passed and of the error returned. *)
Lemma body_traced_info tok linebuf ent s log :
  match body (traced cb) tok linebuf ent (s, log) with
  | Continue _ _ st' =>
      snd st' = log \/ exists e, snd st' = log ++ [(e, None)] /\ trimmed e
  | Return err st' =>
      (snd st' = log /\ err = ErrInvalidLine (linebuf ++ tok) /\
       complete (linebuf ++ tok) /\ first (linebuf ++ tok) <> HASH /\
       ~ bracketed (linebuf ++ tok) /\ ~ In EQUALS (linebuf ++ tok))
      \/ exists e, snd st' = log ++ [(e, Some err)] /\ trimmed e
  end.
Proof.
  unfold body. cbv zeta.
  destruct ((len (linebuf ++ tok) =? 0)%N
            || (len (TrimSpace (linebuf ++ tok)) =? 0)%N) eqn:E0; [now left|].
  destruct (byte_eqb_spec (lastb (linebuf ++ tok)) BACKSLASH) as [E1|E1];
    [now left|].
  destruct (byte_eqb_spec (first (linebuf ++ tok)) HASH) as [E2|E2]; [now left|].
  destruct (Byte.eqb (first (linebuf ++ tok)) LBRACKET
            && Byte.eqb (lastb (linebuf ++ tok)) RBRACKET) eqn:E3; [now left|].
  assert (Hc : complete (linebuf ++ tok)).
  { split; [|exact E1]. apply orb_false_iff in E0. destruct E0 as [_ E0].
    intros Hn. rewrite Hn in E0. discriminate E0. }
  assert (Hb : ~ bracketed (linebuf ++ tok)).
  { intros [H1 H2]. rewrite H1, H2 in E3. discriminate E3. }
  destruct (IndexByte (linebuf ++ tok) EQUALS) as [idx|] eqn:E4.
  - destruct (IndexByte_Some _ _ _ E4) as [post [_ [Hpre _]]].
    assert (Ht : trimmed (mkEntry (Section_ ent)
                            (TrimSpace (firstn idx (linebuf ++ tok)))
                            (TrimSpace (skipn (idx + 1) (linebuf ++ tok))))).
    { unfold trimmed. cbn [Key Value]. repeat split.
      - apply TrimSpace_idempotent.
      - intros Hin. apply Hpre. now apply TrimSpace_incl.
      - apply TrimSpace_idempotent. }
    unfold traced. cbn [fst snd].
    match goal with |- context [cb ?e s] => destruct (cb e s) as [s' [err|]] end;
      cbn [snd]; right; eexists; (split; [reflexivity | exact Ht]).
  - left. apply IndexByte_None in E4.
    split; [reflexivity|]. split; [reflexivity|].
    split; [exact Hc|]. split; [exact E2|]. split; [exact Hb | exact E4].
Qed.


(** What the loop adds to the log, and where the error it returns comes
    from. *)
Lemma loop_traced_info toks serr : forall linebuf ent s log s' log' res,
  loop (traced cb) toks serr linebuf ent (s, log) = ((s', log'), res) ->
  (Forall (fun c => trimmed (fst c)) log ->
   Forall (fun c => trimmed (fst c)) log') /\
  (forall err, res = Some err ->
     (exists line,
        err = ErrInvalidLine line /\ complete line /\ first line <> HASH /\
        ~ bracketed line /\ ~ In EQUALS line)
     \/ serr = Some err
     \/ exists e, In (e, Some err) log').
Proof.
  induction toks as [|tok toks IH]; intros linebuf ent s log s' log' res H.
  - simpl in H. injection H as <- <- <-. split; [trivial|].
    intros err ->. right. now left.
  - cbn [loop] in H.
    pose proof (body_traced_info tok linebuf ent s log) as Hb.
    destruct (body (traced cb) tok linebuf ent (s, log))
      as [lb' ent' [s1 log1]|err1 [s1 log1]]; cbn [snd] in Hb.
    + destruct (IH _ _ _ _ _ _ _ H) as [IH1 IH2]. split; [|exact IH2].
      intros Hlog. apply IH1.
      destruct Hb as [-> | [e [-> He]]]; [exact Hlog|].
      apply Forall_app. split; [exact Hlog | now constructor].
    + injection H as <- <- <-. split.
      * intros Hlog. destruct Hb as [[-> _] | [e [-> He]]]; [exact Hlog|].
        apply Forall_app. split; [exact Hlog | now constructor].
      * intros err [= <-].
        destruct Hb as [[_ [-> [H1 [H2 [H3 H4]]]]] | [e [-> _]]].
        -- left. now exists (linebuf ++ tok).
        -- right. right. exists e. apply in_or_app. right. now left.
Qed.

(** X5. Whatever the stream and the callback, every entry [Read] hands to
    the callback has a key and a value without white space at either end,
    and a key without '='. *)
Theorem Read_delivers_trimmed data s0 :
  Forall (fun c => trimmed (fst c))
    (snd (fst (Read (traced cb) data (s0, [])))).
Proof.
  unfold Read. destruct (Bufio.Scanner data) as [toks serr].
  destruct (loop (traced cb) toks serr [] zeroEntry (s0, []))
    as [[s' log] res] eqn:E.
  destruct (loop_traced_info _ _ _ _ _ _ _ _ _ E) as [H _].
  apply H. constructor.
Qed.


End Delivery.


(** ** Entry lines, one after the other *)

Section EntryLines.
Import GoBytes TrimFacts IndexFacts ScanFacts.

Lemma body_entryToken {St : Type} (cb : Entry -> St -> St * option error)
    tok ent s :
  entryToken tok ->
  body cb tok [] ent s =
    match cb (parseLine (Section_ ent) tok) s with
    | (s', Some err) => Return err s'
    | (s', None) => Continue [] (parseLine (Section_ ent) tok) s'
    end.
Proof.
  intros [Hc [Hh [Hb He]]]. unfold parseLine.
  destruct (IndexByte tok EQUALS) as [idx|] eqn:E.
  - destruct (IndexByte_Some _ _ _ E) as [post [Hsplit [Hpre Hpost]]].
    rewrite (body_entry cb tok [] ent s (firstn idx tok) post);
      try assumption.
    now rewrite Hpost.
  - apply IndexByte_None in E. contradiction.
Qed.

(** X7. Raw lines that are entry lines by themselves are delivered one
    entry per line, in the order of the lines, each with the section the
    loop holds; the section does not change on the way. *)
Theorem entries_in_order toks serr ent got :
  Forall entryToken toks ->
  loop collect toks serr [] ent got
  = (got ++ map (parseLine (Section_ ent)) toks, serr).
Proof.
  intros H. revert ent got.
  induction H as [|tok toks Ht _ IH]; intros ent got.
  - simpl. now rewrite app_nil_r.
  - rewrite loop_cons, (body_entryToken collect tok ent got Ht).
    unfold collect at 1. rewrite IH. cbn [map].
    replace (Section_ (parseLine (Section_ ent) tok)) with (Section_ ent)
      by (unfold parseLine; now destruct (IndexByte tok EQUALS)).
    now rewrite <- app_assoc.
Qed.

End EntryLines.

(** Three entry lines behind a section header. *)
Lemma entries_in_order_witness :
  ReadEntries (bs "[s]" ++ [LF] ++ bs "b = 2" ++ [LF] ++ bs "a = 1" ++ [LF]
               ++ bs "b = 3" ++ [LF])
  = ([mkEntry (bs "s") (bs "b") (bs "2"); mkEntry (bs "s") (bs "a") (bs "1");
      mkEntry (bs "s") (bs "b") (bs "3")], None).
Proof.
  refine (eq_trans
            (entries_in_order [bs "b = 2"; bs "a = 1"; bs "b = 3"] None
               (mkEntry (bs "s") [] []) [] _) _).
  - repeat constructor; try (vm_compute; discriminate);
      try (vm_compute; intros [? ?]; discriminate); vm_compute; tauto.
  - vm_compute. reflexivity.
Defined.

(** * Further properties of [escape] and [Write] *)

(** ** [escape] *)

Section Escape.
Import GoBytes TrimFacts ScanFacts.


(** X9. [escape] keeps different texts different. *)
Theorem escape_injective x y : escape x = escape y -> x = y.
Proof.
  unfold escape. revert y. induction x as [|a x IH]; intros y H.
  - destruct y as [|b y]; [reflexivity|]. cbn in H.
    destruct (Byte.eqb b LF); discriminate H.
  - destruct y as [|b y]; cbn [GoStrings.ReplaceNewlines] in H.
    + destruct (Byte.eqb a LF); discriminate H.
    + destruct (byte_eqb_spec a LF) as [->|Ha];
        destruct (byte_eqb_spec b LF) as [->|Hb].
      * injection H as H. f_equal. now apply IH.
      * injection H as E H2. subst b.
        destruct y as [|c y]; cbn in H2; [discriminate H2|].
        destruct (byte_eqb_spec c LF) as [->|Hc]; injection H2 as E; congruence.
      * injection H as E H2. subst a.
        destruct x as [|c x]; cbn in H2; [discriminate H2|].
        destruct (byte_eqb_spec c LF) as [->|Hc]; injection H2 as E; congruence.
      * injection H as -> H. f_equal. now apply IH.
Qed.

End Escape.

(** Two spellings of one text. *)
Lemma escape_injective_witness :
  bs "a" ++ [LF] ++ bs "b" = [x61; x0a; x62].
Proof.
  apply (escape_injective (bs "a" ++ [LF] ++ bs "b") [x61; x0a; x62]).
  vm_compute. reflexivity.
Defined.

(** ** The text [Write] writes *)

Section WrittenText.
Import GoBytes TrimFacts ScanFacts.

Lemma render_app es1 : forall sec wr e1 es2,
  render sec wr (es1 ++ e1 :: es2)
  = render sec wr (es1 ++ [e1]) ++ render (Section_ e1) true es2.
Proof.
  induction es1 as [|e es1 IH]; intros sec wr e1 es2.
  - cbn [app]. now rewrite (render_cons sec wr e1 es2).
  - cbn [app]. rewrite (render_cons sec wr e (es1 ++ e1 :: es2)), IH.
    rewrite (render_cons sec wr e (es1 ++ [e1])). now rewrite app_assoc.
Qed.

(** X10. The text [Write] writes into a buffer, entry by entry: nothing for
    no entry; for the first entry its line, behind a section header unless
    its section is empty; for every further entry its line, behind an
    empty line and a section header when its section differs from the
    section of the entry before it. *)
Theorem Write_entry_by_entry :
  WriteString [] = [] /\
  (forall e,
     WriteString [e]
     = (if bytes_eq_dec (Section_ e) [] then []
        else escape (headerLine (Section_ e)) ++ [LF])
       ++ escape (entryLine e) ++ [LF]) /\
  (forall es e0 e,
     WriteString (es ++ [e0; e])
     = WriteString (es ++ [e0])
       ++ (if bytes_eq_dec (Section_ e) (Section_ e0) then []
           else [LF] ++ escape (headerLine (Section_ e)) ++ [LF])
       ++ escape (entryLine e) ++ [LF]).
Proof.
  split; [reflexivity|]. split.
  - intros e. rewrite WriteString_render. cbn [render].
    rewrite app_nil_r. destruct (bytes_eq_dec (Section_ e) []); reflexivity.
  - intros es e0 e. rewrite !WriteString_render.
    rewrite (render_app es [] false e0 [e]). f_equal.
Qed.

Lemma render_same sec es : forall wr,
  Forall (fun x => Section_ x = sec) es ->
  render sec wr es = concat (map (fun x => escape (entryLine x) ++ [LF]) es).
Proof.
  induction es as [|e es IH]; intros wr H; [reflexivity|].
  inversion H as [|? ? He Hes]; subst.
  cbn [render map concat].
  destruct (bytes_eq_dec (Section_ e) (Section_ e)) as [_|E]; [|congruence].
  cbn [app]. rewrite (IH true Hes). now rewrite <- app_assoc.
Qed.

(** X11. Entries of one section are written under one section header:
    the header (none for the empty section) is followed by the lines of
    the entries, one after the other, with nothing between them. *)
Theorem Write_one_section sec e es :
  Forall (fun x => Section_ x = sec) (e :: es) ->
  WriteString (e :: es)
  = (if bytes_eq_dec sec [] then [] else escape (headerLine sec) ++ [LF])
    ++ concat (map (fun x => escape (entryLine x) ++ [LF]) (e :: es)).
Proof.
  intros H. inversion H as [|? ? He Hes]; subst.
  rewrite WriteString_render. cbn [render map concat].
  rewrite (render_same (Section_ e) es true Hes).
  destruct (bytes_eq_dec (Section_ e) []); cbn [app];
    now rewrite <- ?app_assoc.
Qed.

End WrittenText.

(** The two entries of the section "table" of the tests. *)
Lemma Write_one_section_witness :
  WriteString [mkEntry (bs "table") (bs "foo") (bs "bar");
               mkEntry (bs "table") (bs "baz") (bs "bif")]
  = bs "[table]" ++ [LF] ++ bs "foo = bar" ++ [LF] ++ bs "baz = bif" ++ [LF].
Proof.
  refine (eq_trans
            (Write_one_section (bs "table")
               (mkEntry (bs "table") (bs "foo") (bs "bar"))
               [mkEntry (bs "table") (bs "baz") (bs "bif")] _) _);
    closed_facts.
Defined.

(** ** What a failing sink has been handed *)

Section SinkPrefix.
Context {W : Type}.
Variable wWrite : bytes -> W -> W * (N * option error).

Lemma Fprint_agree p e1 e2 :
  chunksAgree e1 e2 ->
  chunksAgree (Fprint (logged wWrite) p e1) (Fprint (logged Buffer_Write) p e2).
Proof.
  intros [H2 [Hc [rest [Hr Hn]]]].
  destruct e1 as [er1 [w1 log1]], e2 as [er2 [buf log2]].
  cbn [err w fst snd] in *. subst er2.
  unfold Fprint, errWriter_Write. cbn [err w].
  destruct er1 as [x|].
  - unfold logged, Buffer_Write, chunksAgree. cbn [fst err w snd].
    split; [reflexivity|]. split.
    + rewrite map_app, concat_app, Hc. cbn. now rewrite app_nil_r.
    + exists (rest ++ [p]). split; [|discriminate].
      rewrite map_app, Hr. cbn. now rewrite app_assoc.
  - rewrite (Hn eq_refl), app_nil_r in Hr.
    unfold logged at 1. cbn [fst snd]. destruct (wWrite p w1) as [w1' [n r]].
    unfold logged, Buffer_Write, chunksAgree. cbn [fst err w snd].
    split; [reflexivity|]. split.
    + rewrite map_app, concat_app, Hc. cbn. now rewrite app_nil_r.
    + exists []. split; [|reflexivity].
      rewrite !map_app, Hr. cbn. now rewrite app_nil_r.
Qed.

Lemma Fprint_if_agree (c : bool) p e1 e2 :
  chunksAgree e1 e2 ->
  chunksAgree (if c then Fprint (logged wWrite) p e1 else e1)
              (if c then Fprint (logged Buffer_Write) p e2 else e2).
Proof. destruct c; [apply Fprint_agree | trivial]. Qed.

Lemma emit_agree st1 st2 ent :
  section st1 = section st2 -> wrote st1 = wrote st2 ->
  chunksAgree (ew st1) (ew st2) ->
  section (emit (logged wWrite) st1 ent)
    = section (emit (logged Buffer_Write) st2 ent) /\
  wrote (emit (logged wWrite) st1 ent)
    = wrote (emit (logged Buffer_Write) st2 ent) /\
  chunksAgree (ew (emit (logged wWrite) st1 ent))
              (ew (emit (logged Buffer_Write) st2 ent)).
Proof.
  destruct st1 as [sec1 wr1 e1], st2 as [sec2 wr2 e2]. cbn [section wrote ew].
  intros <- <- H. unfold emit. cbn [section wrote ew].
  destruct (bytes_eq_dec (Section_ ent) sec1) as [E|E]; cbn [section wrote ew];
    (split; [reflexivity|]); (split; [reflexivity|]);
    repeat first [apply Fprint_agree | apply Fprint_if_agree]; exact H.
Qed.

Lemma fold_emit_agree ents : forall st1 st2,
  section st1 = section st2 -> wrote st1 = wrote st2 ->
  chunksAgree (ew st1) (ew st2) ->
  chunksAgree (ew (fold_left (emit (logged wWrite)) ents st1))
              (ew (fold_left (emit (logged Buffer_Write)) ents st2)).
Proof.
  induction ents as [|ent ents IH]; intros st1 st2 Hs Hw H; [exact H|].
  cbn [fold_left]. destruct (emit_agree st1 st2 ent Hs Hw H) as [Hs' [Hw' H']].
  now apply IH.
Qed.

(** X12. Whatever the sink does, the chunks [Write] hands to it are the
    first of the chunks it hands to a buffer, which together are the text
    written into the buffer; if [Write] returns nil the sink has been
    handed all of them. *)
Theorem Write_chunks_prefix w0 ents w' log res :
  Write (logged wWrite) (w0, []) ents = ((w', log), res) ->
  concat (WriteChunks ents) = WriteString ents /\
  exists rest,
    WriteChunks ents = map fst log ++ rest /\ (res = None -> rest = []).
Proof.
  unfold Write. intros H.
  pose proof (fold_emit_agree ents
                (mkWstate [] false (mkErrWriter None (w0, [])))
                (mkWstate [] false (mkErrWriter None ([], [])))
                eq_refl eq_refl) as Ha.
  cbn [ew] in Ha.
  destruct Ha as [H2 [Hc [rest [Hr Hn]]]].
  { split; [reflexivity|]. split; [reflexivity|]. exists []. now split. }
  injection H as Hw Hres.
  destruct (fold_emit_logged Buffer_Write ents
              (mkWstate [] false (mkErrWriter None ([], []))))
    as [_ Hu].
  { left. split; [reflexivity | constructor]. }
  unfold WriteChunks, WriteString, Write. cbv zeta. cbn [fst snd].
  split.
  - etransitivity; [exact Hc|].
    apply (f_equal (fun st => w (ew st))) in Hu. exact Hu.
  - exists rest. split.
    + etransitivity; [exact Hr|]. now rewrite Hw.
    + intros E. apply Hn. now rewrite Hres.
Qed.

End SinkPrefix.

(** A sink that fails on its third call has been handed the first three
    of the eight chunks of two entries. *)
Lemma Write_chunks_prefix_witness :
  concat (WriteChunks [mkEntry [] (bs "a") (bs "b"); mkEntry [] (bs "c") (bs "d")])
  = WriteString [mkEntry [] (bs "a") (bs "b"); mkEntry [] (bs "c") (bs "d")] /\
  exists rest,
    WriteChunks [mkEntry [] (bs "a") (bs "b"); mkEntry [] (bs "c") (bs "d")]
    = map fst [(bs "a ", @None error); (bs "=", None);
               (bs " b", Some (ErrOther "full"))] ++ rest /\
    (Some (ErrOther "full") = None -> rest = []).
Proof.
  apply (Write_chunks_prefix fullAfter ([], 2)
           [mkEntry [] (bs "a") (bs "b"); mkEntry [] (bs "c") (bs "d")]
           (bs "a =", 0)).
  vm_compute. reflexivity.
Defined.

(** * The test helpers of ini_test.go *)

Section TestHelpers.
Import GoTest.

Lemma Split_not_nil s : Split s <> [].
Proof.
  destruct s as [|b s]; simpl; [discriminate|].
  destruct (Byte.eqb b LF); [discriminate|]. destruct (Split s); discriminate.
Qed.

Lemma Split_line l : ~ In LF l -> Split l = [l].
Proof.
  induction l as [|b l IH]; intros H; [reflexivity|]. cbn [Split].
  rewrite byte_eqb_neq by (intros ->; apply H; now left).
  rewrite IH; [reflexivity|]. intros Hin. apply H. now right.
Qed.

Lemma Split_app_LF l rest :
  ~ In LF l -> Split (l ++ LF :: rest) = l :: Split rest.
Proof.
  induction l as [|b l IH]; intros H; cbn [app Split].
  - now rewrite byte_eqb_refl.
  - rewrite byte_eqb_neq by (intros ->; apply H; now left).
    rewrite IH; [reflexivity|]. intros Hin. apply H. now right.
Qed.

(** Splitting what has been joined gives the lines back. *)
Lemma Split_Join lines :
  lines <> [] -> Forall (fun l => ~ In LF l) lines -> Split (Join lines) = lines.
Proof.
  induction lines as [|l lines IH]; intros Hne H; [congruence|].
  inversion H as [|? ? Hl Hls]; subst.
  destruct lines as [|l2 lines]; [now apply Split_line|].
  change (Join (l :: l2 :: lines)) with (l ++ LF :: Join (l2 :: lines)).
  rewrite Split_app_LF by exact Hl. rewrite IH; [reflexivity | discriminate | exact Hls].
Qed.

(** X13. [Reader] takes the two tabs off every line: lines that are
    written with two tabs in front of each are delivered without them,
    and nothing else changes. *)
Theorem Reader_unindent lines :
  lines <> [] -> Forall (fun l => ~ In LF l) lines ->
  Reader (Join (map (fun l => TAB :: TAB :: l) lines)) = Join lines.
Proof.
  intros Hne H. unfold Reader. rewrite Split_Join.
  - rewrite map_map. cbn [TrimPrefix]. now rewrite map_id.
  - now destruct lines.
  - apply Forall_map. eapply Forall_impl; [|exact H].
    intros l Hl [E|[E|Hin]]; [discriminate E | discriminate E | now apply Hl].
Qed.

Lemma normalize_plain data :
  Forall (fun v => lastb (TrimPrefix v) <> BACKSLASH) data ->
  normalize false data = Some (map blankComment data).
Proof.
  induction 1 as [|v data Hv _ IH]; [reflexivity|].
  cbn [normalize map]. cbv zeta. unfold blankComment at 1.
  rewrite orb_false_r.
  destruct ((0 <? len (TrimPrefix v))%N && Byte.eqb (first (TrimPrefix v)) HASH)
    eqn:E.
  - apply andb_true_iff in E. destruct E as [E _].
    apply N.ltb_lt in E.
    replace (len (TrimPrefix v) =? 0)%N with false
      by (symmetry; apply N.eqb_neq; lia).
    rewrite (byte_eqb_neq _ _ Hv), IH. reflexivity.
  - rewrite IH. reflexivity.
Qed.

(** X14. When no line of the data ends with a backslash, [NormalizedData]
    does not panic: it returns the lines without their two tabs, those
    that start with '#' emptied, joined and trimmed. *)
Theorem NormalizedData_plain Data :
  Forall (fun v => lastb (TrimPrefix v) <> BACKSLASH) (Split Data) ->
  NormalizedData Data
  = Some (GoBytes.TrimSpace (Join (map blankComment (Split Data)))).
Proof.
  intros H. unfold NormalizedData. now rewrite normalize_plain.
Qed.

Lemma normalize_app_plain pre rest :
  Forall (fun v => lastb (TrimPrefix v) <> BACKSLASH) pre ->
  normalize false (pre ++ rest)
  = option_map (app (map blankComment pre)) (normalize false rest).
Proof.
  induction 1 as [|v pre Hv _ IH]; cbn [app map].
  - now destruct (normalize false rest).
  - cbn [normalize]. cbv zeta. unfold blankComment at 1.
    rewrite orb_false_r.
    destruct ((0 <? len (TrimPrefix v))%N
              && Byte.eqb (first (TrimPrefix v)) HASH) eqn:E.
    + apply andb_true_iff in E. destruct E as [E _]. apply N.ltb_lt in E.
      replace (len (TrimPrefix v) =? 0)%N with false
        by (symmetry; apply N.eqb_neq; lia).
      rewrite (byte_eqb_neq _ _ Hv), IH.
      now destruct (normalize false rest).
    + rewrite IH. now destruct (normalize false rest).
Qed.

(** X15. [NormalizedData] panics on an empty line that follows a comment line
    ending with a backslash: [v[len(v)-1]] is evaluated on the empty line.
    [Read] takes the same data without error. *)
Theorem NormalizedData_panics pre c v rest :
  Forall (fun l => ~ In LF l) (pre ++ c :: v :: rest) ->
  Forall (fun l => lastb (TrimPrefix l) <> BACKSLASH) pre ->
  first (TrimPrefix c) = HASH -> lastb (TrimPrefix c) = BACKSLASH ->
  TrimPrefix v = [] ->
  NormalizedData (Join (pre ++ c :: v :: rest)) = None.
Proof.
  intros Hlf Hpre Hc1 Hc2 Hv.
  assert (Hlen : (0 <? len (TrimPrefix c))%N = true).
  { apply N.ltb_lt. destruct (TrimPrefix c) as [|b l]; [discriminate Hc1|].
    unfold len. cbn [length]. lia. }
  assert (E : normalize false (pre ++ c :: v :: rest) = None).
  { etransitivity; [exact (normalize_app_plain pre (c :: v :: rest) Hpre)|].
    cbn [normalize]. cbv zeta. rewrite Hc1, Hc2, Hv, !byte_eqb_refl, Hlen.
    cbn [andb orb].
    replace (len (TrimPrefix c) =? 0)%N with false
      by (symmetry; apply N.eqb_neq; apply N.ltb_lt in Hlen; lia).
    reflexivity. }
  unfold NormalizedData.
  rewrite Split_Join; [|now destruct pre | exact Hlf].
  etransitivity; [exact (f_equal (option_map _) E)|]. reflexivity.
Qed.

End TestHelpers.

(** Two lines with two tabs each. *)
Lemma Reader_unindent_witness :
  GoTest.Reader ([TAB; TAB] ++ bs "[table]" ++ [LF; TAB; TAB] ++ bs "foo = bar")
  = bs "[table]" ++ [LF] ++ bs "foo = bar".
Proof.
  apply (Reader_unindent [bs "[table]"; bs "foo = bar"]); closed_facts.
Defined.

(** A comment, an empty line and an entry. *)
Lemma NormalizedData_plain_witness :
  GoTest.NormalizedData
    ([TAB; TAB] ++ bs "# c" ++ [LF; LF; TAB; TAB] ++ bs "foo = bar" ++ [LF; TAB])
  = Some (bs "foo = bar").
Proof.
  refine (eq_trans (NormalizedData_plain _ _) _); closed_facts.
Defined.

(** A comment that goes on, followed by an empty line: the helper panics,
    [Read] returns the entry. *)
Lemma NormalizedData_panics_witness :
  GoTest.NormalizedData
    ([TAB; TAB] ++ bs "# c \" ++ [LF; LF; TAB; TAB] ++ bs "foo = bar") = None
  /\ Read collect
       (GoTest.Reader
          ([TAB; TAB] ++ bs "# c \" ++ [LF; LF; TAB; TAB] ++ bs "foo = bar")) []
     = ([mkEntry [] (bs "foo") (bs "bar")], None).
Proof.
  split.
  - apply (NormalizedData_panics [] ([TAB; TAB] ++ bs "# c \") []
             [[TAB; TAB] ++ bs "foo = bar"]); closed_facts.
  - vm_compute. reflexivity.
Defined.

(** The table as [Reader] hands it on. *)
Example Reader_tests :
  map (fun t => (GoTest.Reader (fst t), snd t)) GoTest.rawTests = tests.
Proof. reflexivity. Qed.

(** [TestRead] passes: for every row of the table [Read] returns nil and
    delivers the entries of the row. *)
Example TestRead_passes : Forall GoTest.TestRead_row GoTest.rawTests.
Proof. repeat constructor. Qed.

(** [TestWrite_RoundTrip] passes: for every row of the table [Write]
    returns nil, what it has written is [NormalizedData] once trimmed, and
    [Read] delivers the entries of the row from it. *)
Example TestWrite_RoundTrip_passes :
  Forall GoTest.TestWrite_RoundTrip_row GoTest.rawTests.
Proof.
  repeat constructor;
    (eexists; split; [reflexivity | split; vm_compute; reflexivity]).
Qed.
